(** * The instrumental error generator of swot_simulator

    A shallow embedding of [swot_simulator/error/generator.py]: the class
    [Generator], its constructor [__init__] and its method [generate].

    Python objects live in a store indexed by references, so that the
    aliasing of the [Generator] instance and of the [result] dictionary is
    the one of the program.  Every interaction with the outside (reading
    the error spectrum, the dask worker client, the futures) is recorded in
    an event log.  Exceptions are the left summand of the outcome. *)

From stdpp Require Import gmap strings list fin_maps.
From stdpp Require Import pretty.
From Stdlib Require Strings.Byte DecimalString.

Section Orchestrator.

(** Python's [float]; the orchestrator moves such values around and never
    computes with them. *)
Context {float : Type}.

(** A numpy array as far as the orchestrator looks at it: a shape and a
    payload. *)
Record ndarray := NdArray { shape : list nat; data : list float }.

Inductive exception :=
| AssertionError
| ValueError (msg : string)
| KeyError (key : string)
| IndexError
| AttributeError
| ExternalError (what : string).

(** The fields of [settings.Parameters] that [Generator] reads. *)
Record Parameters := {
  error_spectrum : option string;
  delta_al : float;
  len_repeat : float;
  noise : list string
}.

(** Modelled from the spec: the six error classes imported from the
    package ([Altimeter], [BaselineDilation], [Karin], [RollPhase],
    [Timing], [WetTroposphere]) are not part of the sources at hand.  Their
    [__name__] is the category name, none is a subclass of another, and an
    instance is the record of its constructor's arguments. *)
Inductive variant :=
| VAltimeter | VBaselineDilation | VKarin | VRollPhase | VTiming
| VWetTroposphere.

Definition __name__ (v : variant) : string :=
  match v with
  | VAltimeter => "Altimeter"
  | VBaselineDilation => "BaselineDilation"
  | VKarin => "Karin"
  | VRollPhase => "RollPhase"
  | VTiming => "Timing"
  | VWetTroposphere => "WetTroposphere"
  end.

Inductive model :=
| Altimeter (parameters : Parameters)
| BaselineDilation (parameters : Parameters)
    (dilationPSD spatial_frequency : ndarray)
| Karin (parameters : Parameters)
| RollPhase (parameters : Parameters)
    (rollPSD phasePSD spatial_frequency : ndarray)
| Timing (parameters : Parameters) (timingPSD spatial_frequency : ndarray)
| WetTroposphere (parameters : Parameters).

Definition class_of (m : model) : variant :=
  match m with
  | Altimeter _ => VAltimeter
  | BaselineDilation _ _ _ => VBaselineDilation
  | Karin _ => VKarin
  | RollPhase _ _ _ _ => VRollPhase
  | Timing _ _ _ => VTiming
  | WetTroposphere _ => VWetTroposphere
  end.

Definition model_parameters (m : model) : Parameters :=
  match m with
  | Altimeter p | BaselineDilation p _ _ | Karin p | RollPhase p _ _ _
  | Timing p _ _ | WetTroposphere p => p
  end.

(** The positional arguments of the constructor call after [parameters]. *)
Definition model_slices (m : model) : list ndarray :=
  match m with
  | Altimeter _ | Karin _ | WetTroposphere _ => []
  | BaselineDilation _ a b => [a; b]
  | RollPhase _ a b c => [a; b; c]
  | Timing _ a b => [a; b]
  end.

(** ** Values, tasks and futures *)

Inductive pyval :=
| PArray (a : ndarray)
| PFloat (x : float)
| PInt (n : Z).

(** [client.submit(item.generate, *args)]: the bound method and its
    arguments. *)
Record task := Task { target : model; args : list pyval }.

(** A future is known by the rank of its submission. *)
Record future := Future { fid : nat; ftask : task }.

Inductive event :=
| ReadFileInstr (path : string) (dal lrep : float)
| WorkerClientEnter
| WorkerClientExit
| Submit (t : task)
| FutureResult (f : future).

(** ** The store *)

Abbreviation loc := nat.

Inductive object :=
| Dict (d : gmap string ndarray)
| GeneratorObj (generators : list model).

Record state := State { objects : gmap loc object; log : list event }.

(** ** State and exception monad *)

Definition M (A : Type) : Type := state → (exception + A) * state.

#[global] Instance M_ret : MRet M := λ A a s, (inr a, s).

#[global] Instance M_bind : MBind M := λ A B f m s,
  match m s with
  | (inl e, s') => (inl e, s')
  | (inr a, s') => f a s'
  end.

Definition raise {A} (e : exception) : M A := λ s, (inl e, s).

Definition lift {A} (r : exception + A) : M A := λ s, (r, s).

Definition emit (ev : event) : M unit :=
  λ s, (inr (), State (objects s) (log s ++ [ev])).

Definition alloc (o : object) : M loc :=
  λ s, let l := fresh (dom (objects s)) in
       (inr l, State (<[l:=o]> (objects s)) (log s)).

(** [with cm: body]: the exit runs whether or not the body raised. *)
Definition with_ {A} (enter exit_ : M unit) (body : M A) : M A :=
  λ s, match enter s with
       | (inl e, s1) => (inl e, s1)
       | (inr _, s1) =>
           match body s1 with
           | (r, s2) =>
               match exit_ s2 with
               | (inl e, s3) => (inl e, s3)
               | (inr _, s3) => (r, s3)
               end
           end
       end.

(** Attribute [self.generators]. *)
Definition get_generators (self : loc) : M (list model) :=
  λ s, match objects s !! self with
       | Some (GeneratorObj g) => (inr g, s)
       | _ => (inl AttributeError, s)
       end.

Definition set_generators (self : loc) (g : list model) : M unit :=
  λ s, match objects s !! self with
       | Some (GeneratorObj _) =>
           (inr (), State (<[self:=GeneratorObj g]> (objects s)) (log s))
       | _ => (inl AttributeError, s)
       end.

(** [self.generators.append(m)] *)
Definition append_generator (self : loc) (m : model) : M unit :=
  g ← get_generators self; set_generators self (g ++ [m]).

(** [result.update(d)]: the keys of [d] overwrite those of [result]. *)
Definition dict_update (result : loc) (d : gmap string ndarray) : M unit :=
  λ s, match objects s !! result with
       | Some (Dict r) =>
           (inr (), State (<[result:=Dict (d ∪ r)]> (objects s)) (log s))
       | _ => (inl AttributeError, s)
       end.

(** [error_spectrum[key].data] *)
Definition getitem (ds : gmap string ndarray) (key : string) : M ndarray :=
  match ds !! key with
  | Some a => mret a
  | None => raise (KeyError key)
  end.

(** ** The collaborators *)

(** [utils.read_file_instr]: the data of the variables of the dataset it
    returns, by name, or the exception it raises. *)
Variable read_file_instr :
  string → float → float → exception + gmap string ndarray.

(** What the worker computes for a future: the dictionary returned by the
    model's [generate], or the exception it raised. *)
Variable computation : future → exception + gmap string ndarray.

(** [dask.distributed.as_completed]: the futures in the order in which
    they complete. *)
Variable as_completed : list future → list future.

Definition call_read_file_instr (path : string) (dal lrep : float)
  : M (gmap string ndarray) :=
  emit (ReadFileInstr path dal lrep);; lift (read_file_instr path dal lrep).

Definition submits (l : list event) : list task :=
  omap (λ ev, match ev with Submit t => Some t | _ => None end) l.

(** [client.submit(...)] *)
Definition client_submit (t : task) : M future :=
  λ s, (inr (Future (length (submits (log s))) t),
        State (objects s) (log s ++ [Submit t])).

(** [future.result()] *)
Definition future_result (f : future) : M (gmap string ndarray) :=
  emit (FutureResult f);; lift (computation f).

(** ** Generator.__init__ *)

(** One turn of the loop over [parameters.noise]: the chain of
    comparisons with the class names. *)
Definition instantiate (parameters : Parameters)
    (spectrum : gmap string ndarray) (item : string) : M model :=
  if decide (item = __name__ VAltimeter) then
    mret (Altimeter parameters)
  else if decide (item = __name__ VBaselineDilation) then
    a ← getitem spectrum "dilationPSD";
    b ← getitem spectrum "spatial_frequency";
    mret (BaselineDilation parameters a b)
  else if decide (item = __name__ VKarin) then
    mret (Karin parameters)
  else if decide (item = __name__ VRollPhase) then
    a ← getitem spectrum "rollPSD";
    b ← getitem spectrum "phasePSD";
    c ← getitem spectrum "spatial_frequency";
    mret (RollPhase parameters a b c)
  else if decide (item = __name__ VTiming) then
    a ← getitem spectrum "timingPSD";
    b ← getitem spectrum "spatial_frequency";
    mret (Timing parameters a b)
  else if decide (item = __name__ VWetTroposphere) then
    mret (WetTroposphere parameters)
  else
    raise (ValueError ("unknown error generation class: " +:+ item)).

Fixpoint init_loop (self : loc) (parameters : Parameters)
    (spectrum : gmap string ndarray) (items : list string) : M unit :=
  match items with
  | [] => mret ()
  | item :: rest =>
      m ← instantiate parameters spectrum item;
      append_generator self m;;
      init_loop self parameters spectrum rest
  end.

Definition __init__ (self : loc) (parameters : Parameters) : M unit :=
  set_generators self [];;
  path ← match error_spectrum parameters with
         | Some p => mret p
         | None => raise AssertionError
         end;
  spectrum ← call_read_file_instr path (delta_al parameters)
                                  (len_repeat parameters);
  init_loop self parameters spectrum (noise parameters).

(** [Generator(parameters)]: a new instance is allocated, [__init__] runs
    on it, and the caller gets the reference only if it did not raise. *)
Definition Generator (parameters : Parameters) : M loc :=
  self ← alloc (GeneratorObj []);
  __init__ self parameters;;
  mret self.

(** ** Generator.generate *)

(** The arguments bound to [item.generate], by the class of [item]. *)
Definition bind_task (item : model) (cycle_number : Z)
    (curvilinear_distance : float) (x_al x_ac : ndarray) : task :=
  match item with
  | Altimeter _ => Task item [PArray x_al]
  | BaselineDilation _ _ _ => Task item [PArray x_al; PArray x_ac]
  | Karin _ =>
      Task item [PArray x_al; PArray x_ac; PFloat curvilinear_distance;
                 PInt cycle_number]
  | RollPhase _ _ _ _ => Task item [PArray x_al; PArray x_ac]
  | Timing _ _ _ => Task item [PArray x_al; PArray x_ac]
  | WetTroposphere _ => Task item [PArray x_al; PArray x_ac]
  end.

(** The first loop: [futures.append(client.submit(...))] for each item. *)
Fixpoint submit_loop (items : list model) (cycle_number : Z)
    (curvilinear_distance : float) (x_al x_ac : ndarray)
    (futures : list future) : M (list future) :=
  match items with
  | [] => mret futures
  | item :: rest =>
      f ← client_submit
            (bind_task item cycle_number curvilinear_distance x_al x_ac);
      submit_loop rest cycle_number curvilinear_distance x_al x_ac
                  (futures ++ [f])
  end.

(** The second loop: [result.update(future.result())]. *)
Fixpoint drain_loop (result : loc) (completed : list future) : M unit :=
  match completed with
  | [] => mret ()
  | f :: rest =>
      d ← future_result f;
      dict_update result d;;
      drain_loop result rest
  end.

(** [x_al.shape[0]] *)
Definition shape0 (a : ndarray) : M nat :=
  match shape a with
  | n :: _ => mret n
  | [] => raise IndexError
  end.

Definition generate (self : loc) (cycle_number : Z)
    (curvilinear_distance : float) (x_al x_ac : ndarray) : M loc :=
  result ← alloc (Dict ∅);
  generators ← get_generators self;
  degenerate ← match generators with
               | [] => mret true
               | _ :: _ => n ← shape0 x_al; mret (bool_decide (n = 0))
               end;
  if degenerate : bool then mret result
  else
    with_ (emit WorkerClientEnter) (emit WorkerClientExit)
      (futures ← submit_loop generators cycle_number curvilinear_distance
                             x_al x_ac [];
       drain_loop result (as_completed futures));;
    mret result.

End Orchestrator.

Arguments ndarray : clear implicits.
Arguments Parameters : clear implicits.
Arguments model : clear implicits.
Arguments pyval : clear implicits.
Arguments task : clear implicits.
Arguments future : clear implicits.
Arguments event : clear implicits.
Arguments object : clear implicits.
Arguments state : clear implicits.
Arguments M : clear implicits.

Section Derived.

Context {float : Type}.

(** ** The tables of the specification *)

(** The calibration slices each variant is constructed with, by the name
    of their channel in the calibration source, after the specification's
    table of variants. *)
Definition spec_required_slices (v : variant) : list string :=
  match v with
  | VAltimeter => []
  | VBaselineDilation => ["dilationPSD"; "spatial_frequency"]
  | VKarin => []
  | VRollPhase => ["rollPSD"; "phasePSD"; "spatial_frequency"]
  | VTiming => ["timingPSD"; "spatial_frequency"]
  | VWetTroposphere => []
  end.

Inductive call_argument :=
| AlongTrack | AcrossTrack | CurvilinearDistance | CycleNumber.

(** The call arguments of each variant, after the same table. *)
Definition spec_call_arguments (v : variant) : list call_argument :=
  match v with
  | VAltimeter => [AlongTrack]
  | VBaselineDilation => [AlongTrack; AcrossTrack]
  | VKarin => [AlongTrack; AcrossTrack; CurvilinearDistance; CycleNumber]
  | VRollPhase => [AlongTrack; AcrossTrack]
  | VTiming => [AlongTrack; AcrossTrack]
  | VWetTroposphere => [AlongTrack; AcrossTrack]
  end.

Definition argument_value (cycle_number : Z) (curvilinear_distance : float)
    (x_al x_ac : ndarray float) (a : call_argument) : pyval float :=
  match a with
  | AlongTrack => PArray x_al
  | AcrossTrack => PArray x_ac
  | CurvilinearDistance => PFloat curvilinear_distance
  | CycleNumber => PInt cycle_number
  end.

(** The channels of a calibration source. *)
Definition channels : list string :=
  ["dilationPSD"; "rollPSD"; "phasePSD"; "timingPSD"; "spatial_frequency"].

(** A loaded calibration table has every channel. *)
Definition calibration_table (spectrum : gmap string (ndarray float)) : Prop :=
  ∀ c, c ∈ channels → is_Some (spectrum !! c).

(** The dataset has the slices of the variant [v]. *)
Definition slices_available (spectrum : gmap string (ndarray float))
    (v : variant) : Prop :=
  ∀ c, c ∈ spec_required_slices v → is_Some (spectrum !! c).

(** A name that is the [__name__] of no error class. *)
Definition unknown_name (item : string) : Prop := ∀ v, item ≠ __name__ v.

(** ** What the loop of [__init__] computes *)

(** [instantiate] neither reads nor writes the store: its outcome. *)
Definition resolve (parameters : Parameters float)
    (spectrum : gmap string (ndarray float)) (item : string)
  : exception + model float :=
  (instantiate parameters spectrum item (State ∅ [])).1.

(** The loop on the list [self.generators] alone: its outcome and the
    list it leaves. *)
Fixpoint built (parameters : Parameters float)
    (spectrum : gmap string (ndarray float)) (items : list string)
    (acc : list (model float)) : (exception + unit) * list (model float) :=
  match items with
  | [] => (inr (), acc)
  | item :: rest =>
      match resolve parameters spectrum item with
      | inl e => (inl e, acc)
      | inr m => built parameters spectrum rest (acc ++ [m])
      end
  end.

(** An instance of variant [v] made for [parameters] with the slices the
    specification's table gives to [v], read in [spectrum]. *)
Definition instance_of (parameters : Parameters float)
    (spectrum : gmap string (ndarray float)) (v : variant)
    (m : model float) : Prop :=
  class_of m = v ∧ model_parameters m = parameters ∧
  Some <$> model_slices m = (spectrum !!.) <$> spec_required_slices v.

(** ** What the two loops of [generate] compute *)

(** The futures the first loop collects when [k] tasks were submitted
    before it. *)
Fixpoint futures_for (k : nat) (items : list (model float))
    (cycle_number : Z) (curvilinear_distance : float)
    (x_al x_ac : ndarray float) : list (future float) :=
  match items with
  | [] => []
  | item :: rest =>
      Future k (bind_task item cycle_number curvilinear_distance x_al x_ac)
      :: futures_for (S k) rest cycle_number curvilinear_distance x_al x_ac
  end.

Variable computation : future float → exception + gmap string (ndarray float).

(** The mapping a future yields, empty when its computation raised. *)
Definition mapping_of (f : future float) : gmap string (ndarray float) :=
  match computation f with
  | inr d => d
  | inl _ => ∅
  end.

Definition succeeds (f : future float) : Prop :=
  ∃ d, computation f = inr d.

(** Successive [update]s of a dictionary. *)
Definition updated (acc : gmap string (ndarray float))
    (ds : list (gmap string (ndarray float))) : gmap string (ndarray float) :=
  foldl (λ a d, d ∪ a) acc ds.

(** The second loop on the dictionary alone: its outcome, the dictionary
    it leaves, and the futures whose result was asked for. *)
Fixpoint drained (completed : list (future float))
    (acc : gmap string (ndarray float))
  : (exception + unit) * gmap string (ndarray float) * list (future float) :=
  match completed with
  | [] => (inr (), acc, [])
  | f :: rest =>
      match computation f with
      | inl e => (inl e, acc, [f])
      | inr d =>
          let '(o, a, c) := drained rest (d ∪ acc) in (o, a, f :: c)
      end
  end.

End Derived.

(** ** A concrete pass

    The scenario of the specification: floats are stood for by integers,
    the calibration source has its five channels, and a worker returns one
    field by model, holding the rank of the future that computed it. *)
Module Scenario.

Definition array1 (xs : list Z) : ndarray Z := NdArray [length xs] xs.

Definition along_track : ndarray Z := array1 [0; 1; 2]%Z.
Definition across_track : ndarray Z := array1 [-10; 0; 10]%Z.
Definition no_track : ndarray Z := array1 [].

Definition table : gmap string (ndarray Z) :=
  list_to_map
    [("dilationPSD", array1 [1%Z]); ("rollPSD", array1 [2%Z]);
     ("phasePSD", array1 [3%Z]); ("timingPSD", array1 [4%Z]);
     ("spatial_frequency", array1 [5%Z])].

Definition read_file_instr (path : string) (dal lrep : Z)
  : exception + gmap string (ndarray Z) :=
  if decide (path = "error_spectrum.nc") then inr table
  else inl (ExternalError "FileNotFoundError").

Definition configuration (source : option string) (names : list string)
  : Parameters Z :=
  {| error_spectrum := source; delta_al := 2%Z; len_repeat := 20000%Z;
     noise := names |}.

Definition field (name : string) (f : future Z) : gmap string (ndarray Z) :=
  {[ name := array1 [Z.of_nat (fid f)] ]}.

(** Every model answers, but the timing model, whose worker fails. *)
Definition computation (f : future Z)
  : exception + gmap string (ndarray Z) :=
  match target (ftask f) with
  | Altimeter _ => inr (field "simulated_error_altimeter" f)
  | BaselineDilation _ _ _ => inr (field "simulated_error_baseline_dilation" f)
  | Karin _ => inr (field "simulated_error_karin" f)
  | RollPhase _ _ _ _ => inr (field "simulated_error_roll" f)
  | Timing _ _ _ => inl (ExternalError "worker failed")
  | WetTroposphere _ => inr (field "simulated_error_troposphere" f)
  end.

Definition start : state Z := State ∅ [].

(** The store after [Generator(parameters)] for the given names; the
    instance is at reference [0]. *)
Definition constructed (names : list string) : state Z :=
  (Generator read_file_instr
     (configuration (Some "error_spectrum.nc") names) start).2.

(** The list of models of that instance. *)
Definition active (names : list string) : list (model Z) :=
  match objects (constructed names) !! 0 with
  | Some (GeneratorObj g) => g
  | _ => []
  end.

(** The futures of the first call of [generate] on that instance, for
    cycle 1 and a curvilinear distance of 1000. *)
Definition futures (names : list string) : list (future Z) :=
  futures_for 0 (active names) 1 1000%Z along_track across_track.

(** The future of the timing model when it is the second of two. *)
Definition timing_future : future Z :=
  Future 1
    (bind_task
       (Timing (configuration (Some "error_spectrum.nc")
                              ["Altimeter"; "Timing"])
               (array1 [4%Z]) (array1 [5%Z]))
       1 1000%Z along_track across_track).

End Scenario.

(** * The logging handlers

    A shallow embedding of [swot_simulator/logbook.py]: the receiver of
    log records and the configuration of the loggers. *)
Module Logbook.

(** ** LogRecordSocketReceiver *)

(** [await stream.read_bytes(num_bytes)] on a connection whose peer sent
    the bytes [stream] and closed: exactly [num_bytes] bytes, or
    [StreamClosedError], here [None], when fewer are left. *)
Definition read_bytes (num_bytes : nat) (stream : list Byte.byte)
  : option (list Byte.byte) * list Byte.byte :=
  if decide (num_bytes ≤ length stream)
  then (Some (take num_bytes stream), drop num_bytes stream)
  else (None, []).

(** [struct.unpack('>L', chunk)[0]]: four bytes, the most significant
    first; [struct.error] on any other length. *)
Definition unpack_L (chunk : list Byte.byte) : exception + N :=
  match chunk with
  | [b3; b2; b1; b0] =>
      inr (((Byte.to_N b3 * 256 + Byte.to_N b2) * 256 + Byte.to_N b1) * 256
           + Byte.to_N b0)%N
  | _ => inl (ExternalError "struct.error")
  end.

Inductive reading :=
| Got (chunk : list Byte.byte)
| StreamClosedError.

(** [while len(chunk) < slen: chunk += await stream.read_bytes(slen -
    len(chunk))]; [None] when the fuel runs out. *)
Fixpoint fill (fuel : nat) (slen : nat) (chunk stream : list Byte.byte)
  : option (reading * list Byte.byte) :=
  if decide (length chunk < slen) then
    match fuel with
    | 0 => None
    | S fuel' =>
        match read_bytes (slen - length chunk) stream with
        | (Some more, stream') => fill fuel' slen (chunk ++ more) stream'
        | (None, stream') => Some (StreamClosedError, stream')
        end
    end
  else Some (Got chunk, stream).

Section Receiver.

(** A [logging.LogRecord], of which the receiver reads the name. *)
Context {record : Type}.
Variable name_of : record → string.

(** [logging.makeLogRecord(pickle.loads(chunk))], or the exception that
    [pickle.loads] raises. *)
Variable loads : list Byte.byte → exception + record.

(** [handle_log_record]: the logger the record is handed to, and the
    record; [handled] lists the calls of [logger.handle] so far. *)
Definition handle_log_record (logname : option string) (rec : record)
    (handled : list (string * record)) : list (string * record) :=
  let name := match logname with
              | Some name => name
              | None => name_of rec
              end in
  handled ++ [(name, rec)].

(** The loop of [handle_stream]; [None] when the fuel runs out. *)
Fixpoint serve (fuel : nat) (logname : option string) (stream : list Byte.byte)
    (handled : list (string * record))
  : option ((exception + unit) * list (string * record)) :=
  match fuel with
  | 0 => None
  | S fuel' =>
      match read_bytes 4 stream with
      | (None, _) => Some (inr (), handled)
      | (Some chunk, stream1) =>
          if decide (length chunk < 4) then Some (inr (), handled)
          else
            match unpack_L chunk with
            | inl e => Some (inl e, handled)
            | inr slen =>
                let slen := N.to_nat slen in
                match read_bytes slen stream1 with
                | (None, _) => Some (inr (), handled)
                | (Some chunk, stream2) =>
                    match fill (slen - length chunk) slen chunk stream2 with
                    | None => None
                    | Some (StreamClosedError, _) => Some (inr (), handled)
                    | Some (Got chunk, stream3) =>
                        match loads chunk with
                        | inl e => Some (inl e, handled)
                        | inr rec =>
                            serve fuel' logname stream3
                                  (handle_log_record logname rec handled)
                        end
                    end
                end
            end
      end
  end.

(** [handle_stream] on the bytes of a connection: every turn of the loop
    that goes on reads at least four bytes. *)
Definition handle_stream (logname : option string) (stream : list Byte.byte)
  : option ((exception + unit) * list (string * record)) :=
  serve (S (length stream)) logname stream [].

End Receiver.

(** The frame that [logging.handlers.SocketHandler], the handler
    [setup_worker_logging] installs, sends for a record: the length of
    its pickle on four bytes, the most significant first, then the
    pickle. *)
Definition byte_of (n : N) : Byte.byte := default Byte.x00 (Byte.of_N n).

Definition pack_L (n : N) : list Byte.byte :=
  [byte_of ((n / 16777216) `mod` 256)%N; byte_of ((n / 65536) `mod` 256)%N;
   byte_of ((n / 256) `mod` 256)%N; byte_of (n `mod` 256)%N].

Definition frame (pickle : list Byte.byte) : list Byte.byte :=
  pack_L (N.of_nat (length pickle)) ++ pickle.

(** A frame cut short: less than a header, or a header that announces
    more bytes than follow. *)
Definition truncated (tail : list Byte.byte) : Prop :=
  length tail < 4 ∨
  ∃ header rest slen,
    tail = header ++ rest ∧ unpack_L header = inr slen ∧
    length rest < N.to_nat slen.

(** ** The loggers *)

(** [tornado.log.LogFormatter(fmt, datefmt=...)] *)
Record formatter := Formatter { fmt : string; datefmt : string }.

Inductive handler_kind :=
| StreamHandler (stream : string)
| SocketHandler (host : string) (port : Z).

Record handler := Handler {
  kind : handler_kind;
  handler_formatter : option formatter
}.

(** The [stream] argument of [_config_logger]: a text stream, known by
    its name, or a handler, known by its reference. *)
Inductive stream_or_handler :=
| IO (name : string)
| IsHandler (ref : nat).

Record logger := Logger {
  propagate : bool;
  handlers : list nat;
  logger_level : Z
}.

(** The loggers of the [logging] module, by name, and the handler
    objects. *)
Record logging := Logging {
  loggers : gmap string logger;
  handler_objects : gmap nat handler
}.

(** [logging.getLogger(name)]: the logger of that name, made on first
    use with no handler and no level. *)
Definition getLogger (name : string) (st : logging) : logger * logging :=
  match loggers st !! name with
  | Some lg => (lg, st)
  | None =>
      let lg := Logger true [] 0%Z in
      (lg, Logging (<[name:=lg]> (loggers st)) (handler_objects st))
  end.

Definition set_logger (name : string) (lg : logger) (st : logging)
  : logging :=
  Logging (<[name:=lg]> (loggers st)) (handler_objects st).

Definition new_handler (k : handler_kind) (st : logging) : nat * logging :=
  let ref := fresh (dom (handler_objects st)) in
  (ref, Logging (loggers st) (<[ref:=Handler k None]> (handler_objects st))).

(** [handler.setFormatter(formatter)] *)
Definition setFormatter (ref : nat) (f : formatter) (st : logging)
  : logging :=
  Logging (loggers st)
          (alter (λ h, Handler (kind h) (Some f)) ref (handler_objects st)).

(** [logger.addHandler(handler)]: a handler already there is not added. *)
Definition addHandler (ref : nat) (lg : logger) : logger :=
  if decide (ref ∈ handlers lg) then lg
  else Logger (propagate lg) (handlers lg ++ [ref]) (logger_level lg).

Definition _config_logger (stream : stream_or_handler) (level : Z)
    (name : string) (st : logging) : logging :=
  let '(lg, st) := getLogger name st in
  let lg := Logger true (handlers lg) (logger_level lg) in
  let formatter :=
    Formatter "%(color)s[%(levelname)1.1s - %(asctime)s] %(message)s"
              "%b %d %H:%M:%S" in
  let '(ref, st) := match stream with
                    | IO io => new_handler (StreamHandler io) st
                    | IsHandler ref => (ref, st)
                    end in
  let st := setFormatter ref formatter st in
  let lg := addHandler ref lg in
  let lg := if decide (level = 0%Z) then lg
            else Logger (propagate lg) (handlers lg) level in
  set_logger name lg st.

(** The loop of [setup_worker_logging] over the names of the loggers. *)
Fixpoint worker_loop (names : list string) (logging_server : string * Z * Z)
    (st : logging) : logging :=
  match names with
  | [] => st
  | name :: rest =>
      let '(lg, st) := getLogger name st in
      match handlers lg with
      | _ :: _ => worker_loop rest logging_server st
      | [] =>
          let '(stream, st) :=
            new_handler (SocketHandler logging_server.1.1 logging_server.1.2)
                        st in
          worker_loop rest logging_server
            (_config_logger (IsHandler stream) logging_server.2 name st)
      end
  end.

(** [setup_worker_logging]; [package] is the name of the directory of the
    module. *)
Definition setup_worker_logging (package : string)
    (logging_server : string * Z * Z) (st : logging) : logging :=
  worker_loop ["distributed"; package] logging_server st.

(** [setup], for what it does to the loggers: [ip] and [port] are those
    of the log server it starts, [stream] the text stream, [sys.stdout]
    for [None]. *)
Definition setup (package : string) (ip : string) (port : Z)
    (stream : option string) (debug : bool) (st : logging)
  : (string * (string * Z * Z)) * logging :=
  let stream := match stream with
                | Some io => io
                | None => "sys.stdout"
                end in
  let level := (if debug then 10 else 20)%Z in
  let st := _config_logger (IO stream) level "distributed" st in
  let st := _config_logger (IO stream) level package st in
  ((package, (ip, port, level)), st).

(** A logger that has at least one handler. *)
Definition configured (name : string) (st : logging) : Prop :=
  ∃ lg, loggers st !! name = Some lg ∧ handlers lg ≠ [].

(** Every handler of every logger is a handler object. *)
Definition handlers_exist (st : logging) : Prop :=
  ∀ name lg ref,
    loggers st !! name = Some lg → ref ∈ handlers lg →
    ref ∈ dom (handler_objects st).

(** The handlers of the logger of a name, none when there is no such
    logger, and its level, unset when there is none. *)
Definition handlers_of (name : string) (st : logging) : list nat :=
  from_option handlers [] (loggers st !! name).

Definition level_of (name : string) (st : logging) : Z :=
  from_option logger_level 0%Z (loggers st !! name).

Definition tornado_formatter : formatter :=
  Formatter "%(color)s[%(levelname)1.1s - %(asctime)s] %(message)s"
            "%b %d %H:%M:%S".

End Logbook.

(** * The product specification

    A shallow embedding of [swot_simulator/product_specification.py]. *)
Module ProductSpec.

Inductive error :=
| KeyError (key : string)
| ValueError (msg : string)
| RuntimeError (msg : string)
| AttributeError (name : string)
| Raised (what : string).

#[global] Instance error_ret : MRet (sum error) := λ A a, inr a.

#[global] Instance error_bind : MBind (sum error) := λ A B f m,
  match m with
  | inl e => inl e
  | inr a => f a
  end.

(** [d[key]] on a dictionary. *)
Definition subscript {A} (d : gmap string A) (key : string) : error + A :=
  match d !! key with
  | Some a => inr a
  | None => inl (KeyError key)
  end.

(** A dictionary whose order of insertion matters: the keys are in the
    order in which they were first set. *)
Fixpoint dict_get {A} (d : list (string * A)) (key : string) : option A :=
  match d with
  | [] => None
  | (k, a) :: d => if decide (k = key) then Some a else dict_get d key
  end.

Fixpoint dict_set {A} (key : string) (a : A) (d : list (string * A))
  : list (string * A) :=
  match d with
  | [] => [(key, a)]
  | (k, b) :: d =>
      if decide (k = key) then (k, a) :: d else (k, b) :: dict_set key a d
  end.

Definition dict_subscript {A} (d : list (string * A)) (key : string)
  : error + A :=
  match dict_get d key with
  | Some a => inr a
  | None => inl (KeyError key)
  end.

(** ** Strings *)

(** [value.lower()]; a character outside ASCII is left as it is. *)
Definition lower_char (c : Ascii.ascii) : Ascii.ascii :=
  let n := Ascii.N_of_ascii c in
  if decide (65 ≤ n ≤ 90)%N then Ascii.ascii_of_N (n + 32) else c.

Fixpoint lower (s : string) : string :=
  match s with
  | EmptyString => EmptyString
  | String c s => String (lower_char c) (lower s)
  end.

(** [s[n:]] *)
Fixpoint string_from (n : nat) (s : string) : string :=
  match n, s with
  | 0, _ => s
  | S n, String _ s => string_from n s
  | S _, EmptyString => EmptyString
  end.

(** [s.replace(old, new)] for a pattern of at least one character: the
    occurrences are taken from the left and do not overlap.  The fuel is
    the number of characters left to read. *)
Fixpoint replace_from (fuel : nat) (old new s : string) : string :=
  match fuel with
  | 0 => s
  | S fuel =>
      if String.prefix old s then
        new +:+ replace_from (fuel - (String.length old - 1)) old new
                  (string_from (String.length old) s)
      else
        match s with
        | EmptyString => EmptyString
        | String c s => String c (replace_from fuel old new s)
        end
  end.

Definition replace (old new s : string) : string :=
  replace_from (String.length s) old new s.

(** ** The duration of a pass *)

(** The value a 64-bit signed integer of numpy holds after an operation
    whose exact result is [z]. *)
Definition int64 (z : Z) : Z :=
  ((z + 9223372036854775808) `mod` 18446744073709551616
   - 9223372036854775808)%Z.

(** The hours, minutes and seconds of [_iso_duration], from the number of
    seconds of the [timedelta64]. *)
Definition duration_fields (seconds : Z) : Z * Z * Z :=
  let hours := (seconds `div` 3600)%Z in
  let seconds := int64 (seconds - int64 (hours * 3600)) in
  let minutes := (seconds `div` 60)%Z in
  let seconds := int64 (seconds - int64 (minutes * 60)) in
  (hours, minutes, seconds).

Definition _iso_duration (seconds : Z) : string :=
  let '(hours, minutes, seconds) := duration_fields seconds in
  let result := "" in
  let result := if decide (hours ≠ 0%Z)
                then result +:+ pretty hours +:+ "H" else result in
  let result := if decide (minutes ≠ 0%Z ∨ result ≠ "")
                then result +:+ pretty minutes +:+ "M" else result in
  let result := result +:+ pretty seconds +:+ "S" in
  "P" +:+ result.

(** ** The document *)

(** An element of the XML document, as [xml.etree.ElementTree] gives it. *)
#[local] Unset Elimination Schemes.
Inductive element := Element {
  tag : string;
  attrib : gmap string string;
  children : list element
}.
#[local] Set Elimination Schemes.

(** [element.find(tag)] and [element.findall(tag)] for a plain tag name:
    the first child, or all the children, of that tag. *)
Definition findall (t : string) (e : element) : list element :=
  filter (λ c, tag c = t) (children e).

Definition find (t : string) (e : element) : option element :=
  head (findall t e).

Definition _find (e : element) (t : string) : error + element :=
  match find t e with
  | None => inl (RuntimeError ("The XML tag '" +:+ t +:+ "' doesn't exist"))
  | Some result => inr result
  end.

Section Model.

(** Python's floats and the scalars of numpy, and its arrays. *)
Context {number array : Type}.

Inductive value :=
| PyNone
| Bool (b : bool)
| Int (z : Z)
| Str (s : string)
| FloatLit (literal : string)
| Num (x : number)
| DtypeS (spec : string).

(** [repr(value)] on a string. *)
Variable repr : string → string.

(** *** numpy *)

(** Whether the module has an attribute of that name, and the
    [__name__] of that attribute. *)
Variable np_has : string → bool.
Variable np_name : string → string.

(** Whether [np.dtype(spec)] accepts the specification. *)
Variable np_dtype_ok : string → bool.

(** [getattr(np, name)(x)], [np.array(x, dtype)] and [float(x)]: the
    number, or the exception raised. *)
Variable np_call : string → value → error + number.
Variable np_array : value → value → error + number.
Variable float : value → error + number.

Inductive np_object :=
| NpAttribute (name : string)
| NpDtype (spec : string).

(** [getattr(np, name)] *)
Definition np_getattr (name : string) : error + np_object :=
  if np_has name then inr (NpAttribute name) else inl (AttributeError name).

Definition _parse_type (dtype width : string) (signed : option bool)
  : error + np_object :=
  if decide (dtype = "real") then np_getattr ("float" +:+ width)
  else if decide (dtype = "integer") then
    np_getattr ((if negb (default false signed) then "u" else "")
                +:+ "int" +:+ width)
  else if decide (dtype = "string") then np_getattr "str"
  else if decide (dtype = "char") then
    if np_dtype_ok ("S" +:+ width) then inr (NpDtype ("S" +:+ width))
    else inl (Raised "TypeError")
  else inl (ValueError ("Data type '" +:+ dtype +:+ "' is not recognized.")).

Definition _strtobool (value : string) : error + bool :=
  let value := lower value in
  if decide (value = "true") then inr true
  else if decide (value = "false") then inr false
  else inl (ValueError ("invalid truth value " +:+ repr value)).

(** The entry of a variable or of an attribute of the product: [shape]
    is there for the variables only. *)
Record properties := Properties {
  attrs : gmap string value;
  dtype : value;
  shape : option (list string)
}.

(** [[dim.attrib["name"] for dim in item.findall("dimension")]] *)
Fixpoint dimension_names (dims : list element) : error + list string :=
  match dims with
  | [] => inr []
  | dim :: rest =>
      name ← subscript (attrib dim) "name";
      names ← dimension_names rest;
      inr (name :: names)
  end.

(** The loop over the [shape] elements. *)
Fixpoint read_shapes (items : list element)
    (shapes : gmap string (list string)) : error + gmap string (list string) :=
  match items with
  | [] => inr shapes
  | item :: rest =>
      dims ← dimension_names (findall "dimension" item);
      match dims with
      | [] => read_shapes rest shapes
      | _ :: _ =>
          name ← subscript (attrib item) "name";
          read_shapes rest (<[name:=dims]> shapes)
      end
  end.

(** The type of a node: the name of the type of numpy, or its [dtype]. *)
Definition node_dtype (item : element) : error + value :=
  width ← subscript (attrib item) "width";
  signed ← match attrib item !! "signed" with
           | Some signed => b ← _strtobool signed; inr (Some b)
           | None => inr None
           end;
  dtype ← _parse_type (tag item) width signed;
  match dtype with
  | NpAttribute name => inr (Str (np_name name))
  | NpDtype spec => inr (DtypeS spec)
  end.

(** One turn of the loop over the nodes. *)
Definition parse_node (shapes : gmap string (list string)) (item : element)
    (acc : list (string * properties) * list (string * properties))
  : error + list (string * properties) * list (string * properties) :=
  let '(variables, attributes) := acc in
  dtype ← node_dtype item;
  match find "annotation" item with
  | None => inr (variables, attributes)
  | Some annotation =>
      varname ← subscript (attrib item) "name";
      if String.prefix "/@" varname then
        inr (variables,
             dict_set (string_from 2 varname)
               (Properties (Str <$> attrib annotation) dtype None)
               attributes)
      else
        _ ← subscript (attrib annotation) "app";
        shape_name ← subscript (attrib item) "shape";
        shape ← subscript shapes shape_name;
        inr (dict_set (string_from 1 varname)
               (Properties (Str <$> delete "app" (attrib annotation)) dtype
                           (Some shape))
               variables,
             attributes)
  end.

Fixpoint parse_nodes (shapes : gmap string (list string))
    (items : list element)
    (acc : list (string * properties) * list (string * properties))
  : error + list (string * properties) * list (string * properties) :=
  match items with
  | [] => inr acc
  | item :: rest =>
      acc ← parse_node shapes item acc;
      parse_nodes shapes rest acc
  end.

(** [_parser(tree)], on the root of the tree: the variables and the
    attributes. *)
Definition _parser (root : element)
  : error + list (string * properties) * list (string * properties) :=
  shapes ← read_shapes (findall "shape" root) ∅;
  science ← _find root "science";
  nodes ← _find science "nodes";
  parse_nodes shapes (children nodes) ([], []).

(** What holds of the entries of the two dictionaries of [_parser]. *)
Definition variable_entry (p : properties) : Prop :=
  (∃ d dims, shape p = Some (d :: dims)) ∧ attrs p !! "app" = None.

Definition attribute_entry (p : properties) : Prop := shape p = None.

(** ** The arguments of [createVariable] *)

(** [keywords.pop(key, fallback)] *)
Definition pop_default (key : string) (fallback : value)
    (keywords : gmap string value) : value * gmap string value :=
  (default fallback (keywords !! key), delete key keywords).

(** The keywords of [createVariable] and their values when the encoding
    does not give them. *)
Definition create_variable_defaults : list (string * value) :=
  [("zlib", Bool true); ("complevel", Int 4); ("shuffle", Bool true);
   ("fletcher32", Bool false); ("contiguous", Bool false);
   ("chunksizes", PyNone); ("endian", Str "native");
   ("least_significant_digit", PyNone); ("fill_value", PyNone)].

(** The loop [kwargs[key] = keywords.pop(key, value)]. *)
Fixpoint pop_all (items : list (string * value))
    (keywords kwargs : gmap string value)
  : gmap string value * gmap string value :=
  match items with
  | [] => (kwargs, keywords)
  | (key, value) :: rest =>
      let '(v, keywords) := pop_default key value keywords in
      pop_all rest keywords (<[key:=v]> kwargs)
  end.

(** [_create_variable_args(encoding, name, variable)]: the type, the
    keywords, and the dictionary [encoding] as the call leaves it. *)
Definition _create_variable_args
    (encoding : gmap string (gmap string value)) (name : string)
    (variable_dtype : value)
  : (value * gmap string value) * gmap string (gmap string value) :=
  let known := encoding !! name in
  let keywords := default ∅ known in
  let keywords := match keywords !! "_FillValue" with
                  | Some v => <["fill_value":=v]> (delete "_FillValue" keywords)
                  | None => keywords
                  end in
  let '(dtype, keywords) := pop_default "dtype" variable_dtype keywords in
  let '(kwargs, keywords) := pop_all create_variable_defaults keywords ∅ in
  ((dtype, kwargs),
   match known with
   | Some _ => <[name:=keywords]> encoding
   | None => encoding
   end).

(** ** ProductSpecification *)

Record spec := Spec {
  variables : list (string * properties);
  attributes : list (string * properties)
}.

(** The loop of [__init__] over the two time variables. *)
Definition init_time (item : string) (variables : list (string * properties))
  : error + list (string * properties) :=
  properties ← dict_subscript variables item;
  inr (dict_set item
         (Properties
            (<["_FillValue":=Int (-9223372036854775808)]>
               (<["units":=Str "microseconds since 2000-01-01 00:00:00.0"]>
                  (attrs properties)))
            (Str "int64") (shape properties))
         variables).

(** [ProductSpecification()], on the root of the tree of its XML file. *)
Definition ProductSpecification (root : element) : error + spec :=
  parsed ← _parser root;
  variables ← init_time "basic/time" parsed.1;
  variables ← init_time "basic/time_tai" variables;
  inr (Spec variables parsed.2).

Definition fill_value (properties : properties) : error + number :=
  match dtype properties with
  | Str name =>
      _ ← np_getattr name;
      v ← subscript (attrs properties) "_FillValue";
      np_call name v
  | dtype =>
      v ← subscript (attrs properties) "_FillValue";
      np_array v dtype
  end.

(** [properties["shape"]] *)
Definition shape_of (properties : properties) : error + list string :=
  match shape properties with
  | Some dims => inr dims
  | None => inl (KeyError "shape")
  end.

Record DataArray := {
  data : array;
  dims : list string;
  name : string;
  da_attrs : gmap string value
}.

(** [time]: the encoding, the arrays, and the specification as the call
    leaves it. *)
Definition ProductSpecification_time (self : spec) (time : array)
  : error + (gmap string (gmap string value) * list DataArray) * spec :=
  properties ← dict_subscript (variables self) "basic/time";
  _ ← subscript (attrs properties) "_FillValue";
  let attrs := delete "_FillValue" (attrs properties) in
  let self :=
    Spec (dict_set "basic/time"
            (Properties attrs (dtype properties) (shape properties))
            (variables self))
         (attributes self) in
  dims ← shape_of properties;
  inr (({[ "basic/time" := ∅ ]},
        [{| data := time; dims := dims; name := "basic/time";
            da_attrs := attrs |}]),
       self).

(** The loops of [_data_array] over the names of attributes. *)
Fixpoint convert (cast : value → error + number) (items : list string)
    (attrs : gmap string value) : error + gmap string value :=
  match items with
  | [] => inr attrs
  | item :: rest =>
      match attrs !! item with
      | Some v =>
          x ← cast v;
          convert cast rest (<[item:=Num x]> attrs)
      | None => convert cast rest attrs
      end
  end.

(** [_cast_to_dtype(attr_value, properties)] *)
Definition _cast_to_dtype (attr_value : value) (properties : properties)
  : error + number :=
  match dtype properties with
  | Str name => _ ← np_getattr name; np_call name attr_value
  | _ => inl (Raised "TypeError")
  end.

Definition ProductSpecification__data_array (self : spec) (name : string)
    (data : array) : error + gmap string value * DataArray :=
  properties ← dict_subscript (variables self) name;
  let attrs := attrs properties in
  fill_value ← fill_value properties;
  _ ← subscript attrs "_FillValue";
  let attrs := delete "_FillValue" attrs in
  let encoding : gmap string value :=
    {[ "_FillValue" := Num fill_value; "dtype" := dtype properties ]} in
  attrs ← convert float ["add_offset"; "scale_factor"] attrs;
  let static_cast :=
    if decide (is_Some (attrs !! "add_offset") ∨
               is_Some (attrs !! "scale_factor"))
    then float
    else λ x, (y ← float x; _cast_to_dtype (Num y) properties) in
  attrs ← convert static_cast ["valid_min"; "valid_max"] attrs;
  let attrs :=
    if decide (is_Some (attrs !! "scale_factor") ∧ attrs !! "add_offset" = None)
    then <["add_offset":=FloatLit "0.0"]> attrs else attrs in
  let attrs :=
    if decide (is_Some (attrs !! "add_offset") ∧ attrs !! "scale_factor" = None)
    then <["scale_factor":=FloatLit "1.0"]> attrs else attrs in
  dims ← shape_of properties;
  inr (encoding,
       {| data := data; dims := dims; name := name; da_attrs := attrs |}).

(** The wrappers of [_data_array]. *)
Variable normalize_longitude : array → array.

Definition x_ac (self : spec) (x_ac : array) :=
  ProductSpecification__data_array self "expert/cross_track_distance" x_ac.

Definition lon (self : spec) (lon : array) :=
  ProductSpecification__data_array self "basic/longitude"
    (normalize_longitude lon).

Definition lon_nadir (self : spec) (lon_nadir : array) :=
  ProductSpecification__data_array self "expert/longitude_nadir"
    (normalize_longitude lon_nadir).

Definition lat (self : spec) (lat : array) :=
  ProductSpecification__data_array self "basic/latitude" lat.

Definition lat_nadir (self : spec) (lat_nadir : array) :=
  ProductSpecification__data_array self "expert/latitude_nadir" lat_nadir.

Definition ssh_karin (self : spec) (ssh : array) :=
  ProductSpecification__data_array self "basic/ssh_karin" ssh.

Definition ssh_nadir (self : spec) (ssh : array)
  : error + gmap string value * DataArray :=
  let encoding : gmap string value :=
    {[ "_FillValue" := Int 2147483647; "dtype" := Str "int32" ]} in
  properties ← dict_subscript (variables self) "basic/time";
  dims ← shape_of properties;
  inr (encoding,
       {| data := ssh; dims := dims; name := "basic/ssh_nadir";
          da_attrs :=
            {[ "coordinates" := Str "longitude latitude";
               "long_name" := Str "sea surface height";
               "scale_factor" := FloatLit "0.0001";
               "standard_name" :=
                 Str "sea surface height above reference ellipsoid";
               "units" := Str "m";
               "valid_min" := FloatLit "-15000000.0";
               "valid_max" := FloatLit "150000000.0" ]} |}).

(** [np.full(shape, fill_value, dtype)] *)
Variable np_full : list nat → number → value → array.

(** [tuple(shape[dim] for dim in properties["shape"])] *)
Fixpoint shape_tuple (shape : gmap string nat) (dims : list string)
  : error + list nat :=
  match dims with
  | [] => inr []
  | dim :: rest =>
      n ← subscript shape dim;
      ns ← shape_tuple shape rest;
      inr (n :: ns)
  end.

(** The loop of [fill_variables] over the variables of the
    specification, in their order. *)
Fixpoint fill_loop (self : spec) (items : list (string * properties))
    (given : list string) (shape : gmap string nat)
  : error + list (gmap string value * DataArray) :=
  match items with
  | [] => inr []
  | (item, _) :: rest =>
      if decide (item ∈ given) then fill_loop self rest given shape
      else
        properties ← dict_subscript (variables self) item;
        fill ← fill_value properties;
        dims ← shape_of properties;
        sizes ← shape_tuple shape dims;
        filled ← ProductSpecification__data_array self item
                   (np_full sizes fill (dtype properties));
        others ← fill_loop self rest given shape;
        inr (filled :: others)
  end.

Definition fill_variables (self : spec) (given : list string)
    (shape : gmap string nat) : error + list (gmap string value * DataArray) :=
  fill_loop self (variables self) given shape.

(** ** Nadir and Swath *)

(** The fields of [orbit_propagator.Pass] that the products read. *)
Record Pass := {
  track_time : array;
  track_lon_nadir : array;
  track_lat_nadir : array;
  track_x_ac : array;
  track_lon : array;
  track_lat : array
}.

Variable array_size : array → nat.
Variable array_shape : array → list nat.

Record product := Product {
  standalone : bool;
  product_spec : spec;
  num_lines : nat;
  encoding : gmap string (gmap string value);
  data_vars : list DataArray
}.

(** [getattr(self.product_spec, attr)(data)] for the methods that build
    one array. *)
Definition call_spec (self : spec) (attr : string) (data : array)
  : error + gmap string value * DataArray :=
  if decide (attr = "x_ac") then x_ac self data
  else if decide (attr = "lon") then lon self data
  else if decide (attr = "lon_nadir") then lon_nadir self data
  else if decide (attr = "lat") then lat self data
  else if decide (attr = "lat_nadir") then lat_nadir self data
  else if decide (attr = "ssh_karin") then ssh_karin self data
  else if decide (attr = "ssh_nadir") then ssh_nadir self data
  else inl (AttributeError attr).

(** The variable that each of these methods builds. *)
Definition method_variable (attr : string) : string :=
  if decide (attr = "x_ac") then "expert/cross_track_distance"
  else if decide (attr = "lon") then "basic/longitude"
  else if decide (attr = "lon_nadir") then "expert/longitude_nadir"
  else if decide (attr = "lat") then "basic/latitude"
  else if decide (attr = "lat_nadir") then "expert/latitude_nadir"
  else if decide (attr = "ssh_karin") then "basic/ssh_karin"
  else "basic/ssh_nadir".

Definition rename (array : DataArray) (name : string) : DataArray :=
  {| data := data array; dims := dims array; name := name;
     da_attrs := da_attrs array |}.

Definition Nadir__data_array (self : product) (attr : string) (data : array)
  : error + product :=
  made ← call_spec (product_spec self) attr data;
  let '(made_encoding, array) := made in
  let array := if standalone self
               then rename array (replace "_nadir" "" (name array))
               else array in
  inr (Product (standalone self) (product_spec self) (num_lines self)
         (<[name array:=made_encoding]> (encoding self))
         (data_vars self ++ [array])).

(** [Nadir(track, standalone)], on the root of the tree of the XML file
    of the specification. *)
Definition Nadir (root : element) (track : Pass) (standalone : bool)
  : error + product :=
  product_spec ← ProductSpecification root;
  made ← ProductSpecification_time product_spec (track_time track);
  let '((encoding, data_vars), product_spec) := made in
  let self := Product standalone product_spec (array_size (track_time track))
                      encoding data_vars in
  self ← Nadir__data_array self "lon_nadir" (track_lon_nadir track);
  Nadir__data_array self "lat_nadir" (track_lat_nadir track).

Definition Nadir_ssh (self : product) (array : array) : error + product :=
  Nadir__data_array self "ssh_nadir" array.

(** Calls of [ssh] in sequence. *)
Fixpoint Nadir_ssh_all (self : product) (arrays : list array)
  : error + product :=
  match arrays with
  | [] => inr self
  | array :: rest => self ← Nadir_ssh self array; Nadir_ssh_all self rest
  end.

(** The names that the arrays of a standalone [Nadir] bear. *)
Definition standalone_names : list string :=
  ["basic/time"; "expert/longitude"; "expert/latitude"; "basic/ssh"].

(** [dict((item.name, item) for item in self.data_vars)] *)
Definition by_name (arrays : list DataArray) : gmap string DataArray :=
  foldl (λ vars item, <[name item:=item]> vars) ∅ arrays.

(** The loop of [to_netcdf] over the arrays that [fill_variables]
    yields. *)
Definition add_filled (self : product)
    (filled : list (gmap string value * DataArray)) : product :=
  foldl (λ self made,
           Product (standalone self) (product_spec self) (num_lines self)
             (<[name made.2:=made.1]> (encoding self))
             (data_vars self ++ [made.2]))
        self filled.

(** What [to_netcdf] does once it has chosen the longitudes and the
    latitudes: it builds the dataset with its global attributes and
    writes the file. *)
Variable write :
  product → Z → Z → string → DataArray → DataArray → error + unit.

Definition Nadir_to_netcdf (self : product) (cycle_number pass_number : Z)
    (path : string) (complete_product : bool) : error + unit :=
  let vars := by_name (data_vars self) in
  self ←
    (if complete_product && bool_decide (is_Some (vars !! "basic/longitude"))
     then
       item ← subscript vars "basic/longitude";
       let shape : gmap string nat :=
         <["num_sides":=2]>
           (list_to_map (reverse (zip (dims item) (array_shape (data item)))))
       in
       filled ← fill_variables (product_spec self)
                  (map name (data_vars self)) shape;
       inr (add_filled self filled)
     else inr self);
  lng_lat ←
    (if bool_decide (is_Some (vars !! "basic/longitude")) then
       lng ← subscript vars "basic/longitude";
       lat ← subscript vars "basic/latitude";
       inr (lng, lat)
     else
       lng ← subscript vars "expert/longitude_nadir";
       lat ← subscript vars "expert/latitude_nadir";
       inr (lng, lat));
  write self cycle_number pass_number path lng_lat.1 lng_lat.2.

(** [np.full((track.time.size, track.x_ac.size), track.x_ac, ...)] *)
Variable np_full_rows : nat → array → array.

(** [Swath(track)] *)
Definition Swath (root : element) (track : Pass) : error + product :=
  self ← Nadir root track false;
  self ← Nadir__data_array self "x_ac"
           (np_full_rows (array_size (track_time track)) (track_x_ac track));
  self ← Nadir__data_array self "lon" (track_lon track);
  Nadir__data_array self "lat" (track_lat track).

Definition Swath_ssh (self : product) (array : array) : error + product :=
  Nadir__data_array self "ssh_karin" array.

End Model.

Arguments value : clear implicits.
Arguments properties : clear implicits.
Arguments spec : clear implicits.
Arguments DataArray : clear implicits.
Arguments Pass : clear implicits.
Arguments product : clear implicits.

End ProductSpec.

(** * Cases

    Concrete inputs on which the models run: a calibration table that
    lacks a slice, connections of the log receiver, states of the
    [logging] module, and a small product specification. *)
Module Cases.

(** ** The generator *)

Definition short_table : gmap string (ndarray Z) :=
  delete "phasePSD" Scenario.table.

Definition read_short_table (path : string) (dal lrep : Z)
  : exception + gmap string (ndarray Z) :=
  inr short_table.

(** An array of dimension zero. *)
Definition scalar : ndarray Z := NdArray [] [7%Z].

(** ** The receiver *)

(** Records known by their name alone: the pickle of a record is the
    bytes of its name, and the empty pickle cannot be loaded. *)
Definition loads (chunk : list Byte.byte) : exception + string :=
  match chunk with
  | [] => inl (ExternalError "EOFError")
  | _ => inr (String.string_of_list_byte chunk)
  end.

Definition name_of (rec : string) : string := rec.

Definition pickle (rec : string) : list Byte.byte :=
  String.list_byte_of_string rec.

(** Two frames, and the header of a third that announces more than
    follows. *)
Definition cut_connection : list Byte.byte :=
  Logbook.frame (pickle "distributed") ++ Logbook.frame (pickle "swot")
  ++ Logbook.pack_L 300 ++ pickle "dist".

(** ** The loggers *)

(** The [logging] module of a process that has made no logger yet. *)
Definition new_process : Logbook.logging := Logbook.Logging ∅ ∅.

(** A process where the logger of dask has a handler to the standard
    error, and a level of its own. *)
Definition dask_process : Logbook.logging :=
  Logbook.Logging
    {[ "distributed" := Logbook.Logger false [0] 30%Z ]}
    {[ 0 := Logbook.Handler (Logbook.StreamHandler "sys.stderr") None ]}.

Definition server : string * Z * Z := ("10.0.0.1", 9020%Z, 20%Z).

End Cases.

(** ** A product specification *)
Module ProductCases.

Import ProductSpec.

Definition dimension (dim : string) : element :=
  Element "dimension" {[ "name" := dim ]} [].

Definition shape_element (shape : string) (dims : list string) : element :=
  Element "shape" {[ "name" := shape ]} (dimension <$> dims).

Definition node (type varname shape width : string)
    (signed : option string) (annotation : list (string * string))
  : element :=
  Element type
    (list_to_map
       ([("name", varname); ("shape", shape); ("width", width)]
        ++ match signed with
           | Some signed => [("signed", signed)]
           | None => []
           end))
    [Element "annotation" (list_to_map annotation) []].

Definition coordinate : list (string * string) :=
  [("app", "conversion"); ("_FillValue", "2147483647");
   ("scale_factor", "1"); ("valid_min", "0"); ("valid_max", "360")].

Definition nodes : list element :=
  [node "real" "/basic/time" "line" "64" None
        [("app", "conversion"); ("long_name", "time in UTC")];
   node "real" "/basic/time_tai" "line" "64" None
        [("app", "conversion"); ("long_name", "time in TAI")];
   node "integer" "/expert/longitude_nadir" "line" "32" (Some "true")
        coordinate;
   node "integer" "/expert/latitude_nadir" "line" "32" (Some "true")
        coordinate;
   node "integer" "/expert/cross_track_distance" "swath" "32" (Some "True")
        [("app", "conversion"); ("_FillValue", "2147483647");
         ("valid_min", "-75"); ("valid_max", "75")];
   node "integer" "/basic/longitude" "swath" "32" (Some "true") coordinate;
   node "integer" "/basic/latitude" "swath" "32" (Some "true") coordinate;
   node "integer" "/basic/ssh_karin" "swath" "32" (Some "true")
        [("app", "conversion"); ("_FillValue", "2147483647");
         ("add_offset", "0")];
   node "string" "/@title" "scalar" "0" None
        [("description", "Level 2 KaRIn low rate sea surface height")];
   node "integer" "/@cycle_number" "scalar" "16" (Some "true")
        [("description", "Cycle number")]].

Definition document (nodes : list element) : element :=
  Element "product" ∅
    [shape_element "scalar" [];
     shape_element "line" ["num_lines"];
     shape_element "swath" ["num_lines"; "num_pixels"];
     Element "science" ∅ [Element "nodes" ∅ nodes]].

Definition root : element := document nodes.

(** A node of a type that the parser does not know, without annotation. *)
Definition complex_node : element :=
  Element "complex" {[ "name" := "/expert/spectrum"; "width" := "64" ]} [].

(** *** numpy, on integers *)

Definition repr (s : string) : string := "'" +:+ s +:+ "'".

Definition np_has (attr : string) : bool :=
  bool_decide (attr ∈ ["float64"; "int16"; "int32"; "uint32"; "int64"; "str"]).

Definition np_name (attr : string) : string := attr.

Definition np_dtype_ok (spec : string) : bool := true.

(** The number that a value reads as. *)
Definition float (v : value Z) : error + Z :=
  match v with
  | Int z | Num z => inr z
  | Bool b => inr (if b then 1 else 0)%Z
  | Str s | FloatLit s =>
      match DecimalString.NilZero.int_of_string s with
      | Some i => inr (Z.of_int i)
      | None => inl (ValueError "could not convert string to float")
      end
  | _ => inl (Raised "TypeError")
  end.

Definition np_call (attr : string) (v : value Z) : error + Z := float v.

Definition np_array (v dtype : value Z) : error + Z := float v.

(** An array: its shape and its values, row by row. *)
Record grid := Grid { extent : list nat; cells : list Z }.

Definition normalize_longitude (lon : grid) : grid :=
  Grid (extent lon) ((λ x, x `mod` 360)%Z <$> cells lon).

Definition np_full (shape : list nat) (fill : Z) (dtype : value Z) : grid :=
  Grid shape (replicate (foldr Nat.mul 1 shape) fill).

Definition array_size (a : grid) : nat := length (cells a).

Definition array_shape (a : grid) : list nat := extent a.

Definition np_full_rows (rows : nat) (a : grid) : grid :=
  Grid [rows; length (cells a)] (concat (replicate rows (cells a))).

Definition write (self : product Z grid) (cycle_number pass_number : Z)
    (path : string) (lng lat : DataArray Z grid) : error + unit :=
  inr ().

Definition line (values : list Z) : grid := Grid [length values] values.

Definition track : Pass grid :=
  {| track_time := line [0; 1]%Z;
     track_lon_nadir := line [359; 361]%Z;
     track_lat_nadir := line [10; 11]%Z;
     track_x_ac := line [-10; 10]%Z;
     track_lon := Grid [2; 2] [358; 360; 360; 362]%Z;
     track_lat := Grid [2; 2] [10; 10; 11; 11]%Z |}.

(** The specification, and the products of the track. *)
Definition parsed := _parser (number:=Z) repr np_has np_name np_dtype_ok root.

Definition parsed_variables : list (string * properties Z) :=
  match parsed with
  | inr made => made.1
  | inl _ => []
  end.

Definition parsed_attributes : list (string * properties Z) :=
  match parsed with
  | inr made => made.2
  | inl _ => []
  end.

(** The document with a node of an unknown type after the two times. *)
Definition bad_root : element :=
  document (take 2 nodes ++ complex_node :: drop 2 nodes).

Definition specification : spec Z :=
  match ProductSpecification repr np_has np_name np_dtype_ok root with
  | inr self => self
  | inl _ => Spec [] []
  end.

Definition after_time : spec Z :=
  match ProductSpecification_time specification (line [0; 1]%Z) with
  | inr (_, self) => self
  | inl _ => specification
  end.

(** The encoding and the array of the longitudes of the swath. *)
Definition longitude : gmap string (value Z) * DataArray Z grid :=
  match ProductSpecification__data_array np_has np_call np_array float
          specification "basic/longitude" (track_lon track) with
  | inr made => made
  | inl _ =>
      (∅, {| data := line []; dims := []; name := ""; da_attrs := ∅ |})
  end.

(** The arrays that complete the longitudes and the latitudes of the
    swath. *)
Definition sizes : gmap string nat :=
  {[ "num_lines" := 2; "num_pixels" := 2 ]}.

Definition filled : list (gmap string (value Z) * DataArray Z grid) :=
  match fill_variables np_has np_call np_array float np_full specification
          ["basic/longitude"; "basic/latitude"] sizes with
  | inr made => made
  | inl _ => []
  end.

Definition empty_product : product Z grid :=
  Product true (Spec [] []) 0 ∅ [].

Definition nadir (standalone : bool) : product Z grid :=
  match Nadir repr np_has np_name np_dtype_ok np_call np_array float
          normalize_longitude array_size root track standalone with
  | inr self => self
  | inl _ => empty_product
  end.

Definition nadir_with_ssh : product Z grid :=
  match Nadir_ssh_all np_has np_call np_array float normalize_longitude
          (nadir true) [line [5; 6]%Z] with
  | inr self => self
  | inl _ => empty_product
  end.

Definition swath : product Z grid :=
  match Swath repr np_has np_name np_dtype_ok np_call np_array float
          normalize_longitude array_size np_full_rows root track with
  | inr self => self
  | inl _ => empty_product
  end.

End ProductCases.

Section Facts.

Context {float : Type}.

Implicit Types (s : state float) (gens items : list (model float)).
Implicit Types (x_al x_ac : ndarray float) (cd : float) (cn : Z).
Implicit Types (acc : gmap string (ndarray float)).

(** ** The loops, the merge and the futures *)

Lemma submits_app (l1 l2 : list (event float)) :
  submits (l1 ++ l2) = submits l1 ++ submits l2.
Proof. apply omap_app. Qed.

Lemma submits_Submit (ts : list (task float)) : submits (Submit <$> ts) = ts.
Proof.
  unfold submits. induction ts as [|t ts IH]; [done|].
  cbn. by rewrite IH.
Qed.

Lemma submit_loop_run items cn cd x_al x_ac futures s :
  submit_loop items cn cd x_al x_ac futures s =
  (inr (futures ++ futures_for (length (submits (log s))) items cn cd x_al x_ac),
   State (objects s)
         (log s ++ ((λ item, Submit (bind_task item cn cd x_al x_ac)) <$> items))).
Proof.
  revert futures s. induction items as [|item rest IH]; intros futures s.
  - simpl. rewrite !app_nil_r. by destruct s.
  - simpl. unfold mbind, M_bind, client_submit. rewrite IH. simpl.
    rewrite submits_app, length_app. simpl.
    rewrite <- !app_assoc. simpl.
    by replace (length (submits (log s)) + 1) with (S (length (submits (log s)))) by lia.
Qed.

Lemma instantiate_pure (p : Parameters float)
    (sp : gmap string (ndarray float)) item s :
  instantiate p sp item s = (resolve p sp item, s).
Proof.
  unfold resolve, instantiate.
  repeat case_decide; try done;
    unfold getitem, mbind, M_bind;
    repeat (match goal with
            | |- context [sp !! ?k] => destruct (sp !! k); simpl
            end); done.
Qed.

Lemma init_loop_run self (p : Parameters float)
    (sp : gmap string (ndarray float)) (names : list string) O l (acc : list (model float)) :
  init_loop self p sp names (State (<[self:=GeneratorObj acc]> O) l) =
  let '(o, gens) := built p sp names acc in
  (o, State (<[self:=GeneratorObj gens]> O) l).
Proof.
  revert acc. induction names as [|item rest IH]; intros acc; simpl; [done|].
  unfold mbind, M_bind. rewrite instantiate_pure.
  destruct (resolve p sp item) as [e|m]; [done|].
  unfold append_generator, get_generators, set_generators, mbind, M_bind.
  cbn [objects log]. rewrite !lookup_insert_eq. cbn [objects log].
  rewrite lookup_insert_eq, insert_insert_eq. apply IH.
Qed.

Lemma calibration_table_slices (sp : gmap string (ndarray float)) v :
  calibration_table sp → slices_available sp v.
Proof.
  intros Hsp c Hc. apply Hsp. unfold channels.
  destruct v; cbn [spec_required_slices] in Hc; set_solver.
Qed.

Ltac slice Hsp k :=
  let a := fresh "a" in
  let Ha := fresh "Ha" in
  destruct (Hsp k) as [a Ha]; [set_solver|].

Lemma resolve_known (p : Parameters float)
    (sp : gmap string (ndarray float)) v :
  slices_available sp v →
  ∃ m, resolve p sp (__name__ v) = inr m ∧ instance_of p sp v m.
Proof.
  intros Hsp. unfold resolve, instantiate, instance_of, slices_available in *.
  destruct v; cbn [spec_required_slices] in Hsp.
  - eexists. by split.
  - slice Hsp "dilationPSD". slice Hsp "spatial_frequency".
    exists (BaselineDilation p a a0). cbn.
    unfold getitem, mbind, M_bind. by rewrite Ha, Ha0.
  - eexists. by split.
  - slice Hsp "rollPSD". slice Hsp "phasePSD". slice Hsp "spatial_frequency".
    exists (RollPhase p a a0 a1). cbn.
    unfold getitem, mbind, M_bind. by rewrite Ha, Ha0, Ha1.
  - slice Hsp "timingPSD". slice Hsp "spatial_frequency".
    exists (Timing p a a0). cbn.
    unfold getitem, mbind, M_bind. by rewrite Ha, Ha0.
  - eexists. by split.
Qed.

Lemma resolve_unknown (p : Parameters float)
    (sp : gmap string (ndarray float)) item :
  unknown_name item →
  resolve p sp item
  = inl (ValueError ("unknown error generation class: " +:+ item)).
Proof.
  intros Hu. unfold resolve, instantiate.
  repeat case_decide; try done;
    match goal with H : item = __name__ ?v |- _ => by apply Hu in H end.
Qed.

Lemma built_app (p : Parameters float) (sp : gmap string (ndarray float))
    (n1 n2 : list string) (acc : list (model float)) :
  built p sp (n1 ++ n2) acc =
  match built p sp n1 acc with
  | (inl e, a) => (inl e, a)
  | (inr _, a) => built p sp n2 a
  end.
Proof.
  revert acc. induction n1 as [|item rest IH]; intros acc; simpl; [done|].
  destruct (resolve p sp item); [done | apply IH].
Qed.

Lemma built_known (p : Parameters float)
    (sp : gmap string (ndarray float)) vs (acc : list (model float)) :
  Forall (slices_available sp) vs →
  ∃ ms, built p sp (__name__ <$> vs) acc = (inr (), acc ++ ms) ∧
        Forall2 (instance_of p sp) vs ms.
Proof.
  intros Hsp. revert acc. induction Hsp as [|v vs Hv _ IH]; intros acc.
  - exists []. by rewrite app_nil_r.
  - destruct (resolve_known p sp v Hv) as (m & Hm & Hi).
    destruct (IH (acc ++ [m])) as (ms & Hms & Hall).
    exists (m :: ms). split; [|by constructor].
    change (__name__ <$> v :: vs) with (__name__ v :: (__name__ <$> vs)).
    cbn [built]. rewrite Hm, Hms. by rewrite <- app_assoc.
Qed.

Lemma built_unknown_fails (p : Parameters float)
    (sp : gmap string (ndarray float)) (names : list string)
    (acc : list (model float)) item :
  item ∈ names → unknown_name item → ∃ e, (built p sp names acc).1 = inl e.
Proof.
  intros Hin Hu. revert acc.
  induction names as [|n rest IH]; intros acc; [by apply elem_of_nil in Hin|].
  simpl. destruct (resolve p sp n) as [e|m] eqn:Hn; [by exists e|].
  apply elem_of_cons in Hin as [->|Hin]; [|by apply IH].
  rewrite resolve_unknown in Hn by done. discriminate.
Qed.

Lemma dom_updated acc (ds : list (gmap string (ndarray float))) :
  dom (updated acc ds) = dom acc ∪ ⋃ (dom <$> ds).
Proof.
  revert acc. induction ds as [|d ds IH]; intros acc; simpl.
  - set_solver.
  - unfold updated in *. simpl. rewrite IH, dom_union_L. set_solver.
Qed.

Lemma updated_lookup_Some acc (ds : list (gmap string (ndarray float))) k a :
  updated acc ds !! k = Some a →
  acc !! k = Some a ∨ ∃ d, d ∈ ds ∧ d !! k = Some a.
Proof.
  revert acc. induction ds as [|d ds IH]; intros acc; simpl; [by left|].
  intros H. apply IH in H as [H|(d' & Hin & Hd')].
  - apply lookup_union_Some_raw in H as [H|[_ H]]; [|by left].
    right. exists d. split; [by left | done].
  - right. exists d'. split; [by right | done].
Qed.

Lemma updated_absent acc (ds : list (gmap string (ndarray float))) k :
  (∀ d, d ∈ ds → d !! k = None) → updated acc ds !! k = acc !! k.
Proof.
  revert acc. induction ds as [|d ds IH]; intros acc Hnone; simpl; [done|].
  unfold updated in *. simpl. rewrite IH.
  - apply lookup_union_r, Hnone. by left.
  - intros d' Hd'. apply Hnone. by right.
Qed.

Lemma updated_app acc (l1 l2 : list (gmap string (ndarray float))) :
  updated acc (l1 ++ l2) = updated (updated acc l1) l2.
Proof. apply foldl_app. Qed.

Lemma updated_last_wins acc (l1 l2 : list (gmap string (ndarray float))) d k a :
  d !! k = Some a → (∀ d', d' ∈ l2 → d' !! k = None) →
  updated acc (l1 ++ d :: l2) !! k = Some a.
Proof.
  intros Hd Hl2. rewrite updated_app. unfold updated at 1. simpl.
  fold (updated (d ∪ updated acc l1) l2).
  rewrite updated_absent by done. by apply lookup_union_Some_l.
Qed.

Lemma futures_for_fid k gens cn cd x_al x_ac (f : future float) :
  f ∈ futures_for k gens cn cd x_al x_ac → k ≤ fid f.
Proof.
  revert k. induction gens as [|g rest IH]; intros k Hin;
    [by apply elem_of_nil in Hin|].
  apply elem_of_cons in Hin as [->|Hin]; [done|].
  apply IH in Hin. lia.
Qed.

Lemma NoDup_futures_for k gens cn cd x_al x_ac :
  NoDup (futures_for k gens cn cd x_al x_ac).
Proof.
  revert k. induction gens as [|g rest IH]; intros k; [constructor|].
  cbn [futures_for]. constructor; [|apply IH].
  intros Hin. apply futures_for_fid in Hin. simpl in Hin. lia.
Qed.

Lemma updated_Permutation (g : future float → gmap string (ndarray float))
    (l l' : list (future float)) acc :
  l ≡ₚ l' → NoDup l →
  (∀ f1 f2, f1 ∈ l → f2 ∈ l → f1 ≠ f2 → dom (g f1) ## dom (g f2)) →
  updated acc (g <$> l) = updated acc (g <$> l').
Proof.
  intros Hp. revert acc.
  induction Hp as [|x l l' Hp IH|x y l|l l' l'' Hp1 IH1 Hp2 IH2];
    intros acc Hnd Hdis.
  - done.
  - apply NoDup_cons in Hnd as [_ Hnd]. cbn. apply IH; [done|].
    intros f1 f2 H1 H2. apply Hdis; by right.
  - cbn. unfold updated. cbn. f_equal.
    rewrite !(assoc_L (∪)). f_equal. apply map_union_comm, map_disjoint_dom.
    apply Hdis; [right; by left | by left |].
    apply NoDup_cons in Hnd as [Hnd _]. intros ->. apply Hnd. by left.
  - rewrite IH1 by done. apply IH2; [by rewrite <- Hp1|].
    intros f1 f2 H1 H2. apply Hdis; by rewrite Hp1.
Qed.

(** ** The construction *)

Section Construction.

Variable read_file_instr :
  string → float → float → exception + gmap string (ndarray float).

#[local] Arguments init_loop : simpl never.

Lemma Generator_run (p : Parameters float) s :
  let self := fresh (dom (objects s)) in
  Generator read_file_instr p s =
  match error_spectrum p with
  | None =>
      (inl AssertionError,
       State (<[self:=GeneratorObj []]> (objects s)) (log s))
  | Some path =>
      let l := log s ++ [ReadFileInstr path (delta_al p) (len_repeat p)] in
      match read_file_instr path (delta_al p) (len_repeat p) with
      | inl e => (inl e, State (<[self:=GeneratorObj []]> (objects s)) l)
      | inr sp =>
          let '(o, gens) := built p sp (noise p) [] in
          (match o with inl e => inl e | inr _ => inr self end,
           State (<[self:=GeneratorObj gens]> (objects s)) l)
      end
  end.
Proof.
  intros self.
  unfold Generator, __init__, mbind, M_bind, alloc, set_generators.
  simpl. fold self. rewrite lookup_insert_eq, insert_insert_eq.
  destruct (error_spectrum p) as [path|]; [|done].
  unfold call_read_file_instr, emit, lift, mbind, M_bind. simpl.
  destruct (read_file_instr path (delta_al p) (len_repeat p)) as [e|sp];
    [done|].
  rewrite init_loop_run.
  destruct (built p sp (noise p) []) as [o gens].
  by destruct o as [e|[]].
Qed.

Lemma Generator_known (p : Parameters float) s path
    (sp : gmap string (ndarray float)) vs :
  error_spectrum p = Some path →
  read_file_instr path (delta_al p) (len_repeat p) = inr sp →
  Forall (slices_available sp) vs →
  noise p = __name__ <$> vs →
  ∃ gens,
    Generator read_file_instr p s
    = (inr (fresh (dom (objects s))),
       State (<[fresh (dom (objects s)):=GeneratorObj gens]> (objects s))
             (log s ++ [ReadFileInstr path (delta_al p) (len_repeat p)])) ∧
    Forall2 (instance_of p sp) vs gens.
Proof.
  intros Hpath Hread Hsp Hnoise.
  destruct (built_known p sp vs [] Hsp) as (gens & Hbuilt & Hall).
  exists gens. split; [|done].
  rewrite Generator_run, Hpath. cbv zeta. rewrite Hread, Hnoise, Hbuilt.
  done.
Qed.

(** C2. A configuration that names an unknown category never yields a
    [Generator]: the construction raises.  When the calibration source is
    given and loads, and the names before the unknown one are known and
    find their slices, the exception is the [ValueError] whose message
    ends with the unknown name. *)
Theorem unknown_name_fails_construction (p : Parameters float) s item :
  item ∈ noise p → unknown_name item →
  let out := Generator read_file_instr p s in
  (∃ e, out.1 = inl e) ∧
  (∀ path sp vs rest,
     error_spectrum p = Some path →
     read_file_instr path (delta_al p) (len_repeat p) = inr sp →
     Forall (slices_available sp) vs →
     noise p = (__name__ <$> vs) ++ item :: rest →
     out.1 = inl (ValueError ("unknown error generation class: " +:+ item))).
Proof.
  intros Hin Hu out. unfold out. rewrite Generator_run. cbv zeta. split.
  - destruct (error_spectrum p) as [path|]; [|by eexists].
    destruct (read_file_instr _ _ _) as [e|sp]; [by eexists|].
    destruct (built_unknown_fails p sp (noise p) [] item Hin Hu) as [e He].
    destruct (built p sp (noise p) []) as [o gens]. simpl in He. subst o.
    by eexists.
  - intros path sp vs rest -> -> Hsp ->.
    destruct (built_known p sp vs [] Hsp) as (ms & Hms & _).
    rewrite built_app, Hms. cbn [built].
    by rewrite resolve_unknown.
Qed.

(** C5. With a calibration source that is given and loads with the
    slices of the variants named, a configuration that names known
    categories yields a [Generator] whose list has one instance by name,
    in the order of the names, each of the named variant and made with
    the parameters and with the slices that the specification's table
    gives to its variant, and no other. *)
Theorem construction_builds_active_models (p : Parameters float) s path
    (sp : gmap string (ndarray float)) vs :
  error_spectrum p = Some path →
  read_file_instr path (delta_al p) (len_repeat p) = inr sp →
  Forall (slices_available sp) vs →
  noise p = __name__ <$> vs →
  let out := Generator read_file_instr p s in
  ∃ self gens,
    out.1 = inr self ∧ (self ∉ dom (objects s)) ∧
    objects out.2 !! self = Some (GeneratorObj gens) ∧
    length gens = length vs ∧
    Forall2 (instance_of p sp) vs gens.
Proof.
  intros Hpath Hread Hsp Hnoise out.
  destruct (Generator_known p s path sp vs) as (gens & Hrun & Hall);
    [done..|].
  unfold out. rewrite Hrun. cbn [fst snd objects].
  exists (fresh (dom (objects s))), gens.
  split; [done|]. split; [apply is_fresh|]. split; [apply lookup_insert_eq|].
  split; [|done]. symmetry. by eapply Forall2_length.
Qed.

(** C9. The construction asserts that the calibration source is given
    and reads it before it looks at the names: without a source it raises
    [AssertionError] and reads nothing; with one it reads it exactly once
    whatever the names are, and when the read raises, that exception is
    the outcome, whatever the names are. *)
Theorem construction_reads_spectrum_first (p : Parameters float) s :
  let out := Generator read_file_instr p s in
  match error_spectrum p with
  | None => out.1 = inl AssertionError ∧ log out.2 = log s
  | Some path =>
      log out.2 = log s ++ [ReadFileInstr path (delta_al p) (len_repeat p)] ∧
      ∀ e, read_file_instr path (delta_al p) (len_repeat p) = inl e →
           out.1 = inl e
  end.
Proof.
  intros out. unfold out. rewrite Generator_run. cbv zeta.
  destruct (error_spectrum p) as [path|]; [|done].
  destruct (read_file_instr _ _ _) as [e|sp].
  - split; [done|]. by intros ? [= ->].
  - destruct (built p sp (noise p) []) as [o gens]. split; [done|].
    intros e. discriminate.
Qed.

End Construction.

(** ** The generation *)

Section Generation.

Variable computation : future float → exception + gmap string (ndarray float).

Lemma drain_loop_run result completed O l acc :
  drain_loop computation result completed (State (<[result:=Dict acc]> O) l) =
  let '(o, a, c) := drained computation completed acc in
  (o, State (<[result:=Dict a]> O) (l ++ (FutureResult <$> c))).
Proof.
  revert l acc. induction completed as [|f rest IH]; intros l acc; simpl.
  - by rewrite app_nil_r.
  - unfold mbind, M_bind, future_result, emit, lift, dict_update. simpl.
    unfold mbind, M_bind. simpl.
    destruct (computation f) as [e|d]; simpl; [done|].
    rewrite lookup_insert_eq. rewrite insert_insert_eq.
    rewrite IH. destruct (drained computation rest (d ∪ acc)) as [[o a] c].
    simpl. by rewrite <- app_assoc.
Qed.

#[local] Arguments submit_loop : simpl never.
#[local] Arguments drain_loop : simpl never.

Lemma generate_run as_completed self cn cd x_al x_ac s gens :
  objects s !! self = Some (GeneratorObj gens) →
  let r := fresh (dom (objects s)) in
  generate computation as_completed self cn cd x_al x_ac s =
  match gens, shape x_al with
  | [], _ | _ :: _, 0 :: _ =>
      (inr r, State (<[r:=Dict ∅]> (objects s)) (log s))
  | _ :: _, [] =>
      (inl IndexError, State (<[r:=Dict ∅]> (objects s)) (log s))
  | _ :: _, S _ :: _ =>
      let fs := futures_for (length (submits (log s))) gens cn cd x_al x_ac in
      let '(o, a, c) := drained computation (as_completed fs) ∅ in
      (match o with inl e => inl e | inr _ => inr r end,
       State (<[r:=Dict a]> (objects s))
             (log s ++ WorkerClientEnter
                :: ((λ item, Submit (bind_task item cn cd x_al x_ac)) <$> gens)
                ++ (FutureResult <$> c) ++ [WorkerClientExit]))
  end.
Proof.
  intros Hself r.
  assert (Hr : objects s !! r = None).
  { apply not_elem_of_dom, is_fresh. }
  assert (Hne : r ≠ self) by (intros ->; congruence).
  unfold generate, mbind, M_bind, alloc, get_generators. simpl. fold r.
  rewrite lookup_insert_ne by done. rewrite Hself.
  destruct gens as [|g gens']; [done|].
  unfold shape0, mbind, M_bind.
  destruct (shape x_al) as [|[|n] sh]; simpl; [done|done|].
  unfold with_, emit. simpl.
  unfold mbind, M_bind. rewrite submit_loop_run. simpl.
  rewrite submits_app. simpl. rewrite app_nil_r.
  rewrite drain_loop_run.
  set (fs := Future _ _ :: _).
  destruct (drained computation (as_completed fs) ∅) as [[o a] c]. simpl.
  rewrite <- !app_assoc. simpl.
  destruct o as [e|[]]; simpl; done.
Qed.

Lemma drained_all_succeed completed acc :
  Forall (succeeds computation) completed →
  drained computation completed acc
  = (inr (), updated acc (mapping_of computation <$> completed), completed).
Proof.
  intros Hall. revert acc.
  induction Hall as [|f rest [d Hd] _ IH]; intros acc; [done|].
  cbn [drained fmap list_fmap]. unfold mapping_of at 1.
  rewrite Hd, IH. done.
Qed.

Lemma drained_fails completed acc f e :
  f ∈ completed → computation f = inl e →
  ∃ f' e', f' ∈ completed ∧ computation f' = inl e' ∧
           (drained computation completed acc).1.1 = inl e'.
Proof.
  intros Hin He. revert acc.
  induction completed as [|g rest IH]; intros acc;
    [by apply elem_of_nil in Hin|].
  cbn [drained]. destruct (computation g) as [e'|d] eqn:Hg.
  - exists g, e'. split; [by left | done].
  - apply elem_of_cons in Hin as [->|Hin]; [congruence|].
    destruct (IH Hin (d ∪ acc)) as (f' & e' & Hf' & He' & Hout).
    exists f', e'. split; [by right|]. split; [done|].
    by destruct (drained computation rest (d ∪ acc)) as [[o a] c].
Qed.

Lemma succeeds_Permutation (l l' : list (future float)) :
  l ≡ₚ l' → Forall (succeeds computation) l' → Forall (succeeds computation) l.
Proof. intros Hp Hall. by rewrite Hp. Qed.

(** C1. When the computation of one of the submitted futures raises,
    [generate] raises: its outcome is the exception of a submitted future
    and the caller gets no reference to a mapping, whatever the order of
    completion and whatever was merged before. *)
Theorem generate_raises_when_a_computation_raises
    as_completed self cn cd x_al x_ac s gens n sh f e :
  objects s !! self = Some (GeneratorObj gens) →
  shape x_al = S n :: sh →
  let fs := futures_for (length (submits (log s))) gens cn cd x_al x_ac in
  as_completed fs ≡ₚ fs →
  f ∈ fs → computation f = inl e →
  ∃ f' e', f' ∈ fs ∧ computation f' = inl e' ∧
    (generate computation as_completed self cn cd x_al x_ac s).1 = inl e'.
Proof.
  intros Hself Hshape fs Hperm Hin He.
  rewrite (generate_run _ _ _ _ _ _ _ gens Hself), Hshape.
  destruct gens as [|g gens']; [by apply elem_of_nil in Hin|].
  cbv zeta. fold fs.
  destruct (drained_fails (as_completed fs) ∅ f e) as (f' & e' & Hf' & He' & Ho);
    [by rewrite Hperm | done |].
  exists f', e'. split; [by rewrite <- Hperm|]. split; [done|].
  destruct (drained computation (as_completed fs) ∅) as [[o a] c].
  simpl in *. by subst o.
Qed.

(** C3. With no active model, or with an along-track array of length
    zero, [generate] returns a new, empty mapping and leaves the event log
    as it was: the worker client is not entered and nothing is submitted. *)
Theorem generate_degenerate_pass
    as_completed self cn cd x_al x_ac s gens :
  objects s !! self = Some (GeneratorObj gens) →
  gens = [] ∨ (∃ sh, shape x_al = 0 :: sh) →
  ∃ r, (r ∉ dom (objects s)) ∧
    generate computation as_completed self cn cd x_al x_ac s
    = (inr r, State (<[r:=Dict ∅]> (objects s)) (log s)).
Proof.
  intros Hself Hdeg. exists (fresh (dom (objects s))).
  split; [apply is_fresh|].
  rewrite (generate_run _ _ _ _ _ _ _ gens Hself).
  destruct Hdeg as [->|[sh Hsh]]; [done|].
  rewrite Hsh. by destruct gens.
Qed.

(** C4. When the along-track array is not of length zero, [generate]
    submits one task by active model, in the order of the list, each on
    the model's [generate] with the call arguments the specification's
    table gives to its variant; this holds whatever the computations then
    return. *)
Theorem generate_submits_one_task_per_model
    as_completed self cn cd x_al x_ac s gens n sh :
  objects s !! self = Some (GeneratorObj gens) →
  shape x_al = S n :: sh →
  ∃ ts,
    submits (log (generate computation as_completed self cn cd x_al x_ac s).2)
    = submits (log s) ++ ts ∧
    Forall2 (λ item t,
               target t = item ∧
               args t = argument_value cn cd x_al x_ac
                          <$> spec_call_arguments (class_of item))
            gens ts.
Proof.
  intros Hself Hshape.
  exists ((λ item, bind_task item cn cd x_al x_ac) <$> gens). split.
  - rewrite (generate_run _ _ _ _ _ _ _ gens Hself), Hshape.
    destruct gens as [|g gens']; [by rewrite app_nil_r|]. cbv zeta.
    destruct (drained computation _ ∅) as [[o a] c]. cbn [snd log].
    rewrite submits_app. f_equal.
    change (WorkerClientEnter :: ?l) with ([WorkerClientEnter (float:=float)] ++ l).
    rewrite !submits_app.
    rewrite (list_fmap_compose (λ item, bind_task item cn cd x_al x_ac) Submit).
    rewrite submits_Submit.
    assert (Hnone : submits (FutureResult <$> c) = []).
    { clear. induction c as [|x c IH]; [done|]. apply IH. }
    rewrite Hnone. simpl. by rewrite app_nil_r.
  - clear. induction gens as [|g gens IH]; [constructor|].
    constructor; [|done]. by destruct g.
Qed.

(** C6. When the along-track array is not of length zero and the
    computations all return, [generate] returns after asking every future
    for its result, and the mapping it returns is the mappings of the
    models merged in the order of completion: its keys are the union of
    their keys and each of its entries is an entry of a model. *)
Theorem generate_merges_every_model
    as_completed self cn cd x_al x_ac s gens n sh :
  objects s !! self = Some (GeneratorObj gens) →
  shape x_al = S n :: sh →
  let fs := futures_for (length (submits (log s))) gens cn cd x_al x_ac in
  as_completed fs ≡ₚ fs →
  Forall (succeeds computation) fs →
  let out := generate computation as_completed self cn cd x_al x_ac s in
  ∃ r d,
    out.1 = inr r ∧ objects out.2 !! r = Some (Dict d) ∧
    d = updated ∅ (mapping_of computation <$> as_completed fs) ∧
    dom d = ⋃ (dom <$> (mapping_of computation <$> fs)) ∧
    (∀ k a, d !! k = Some a →
            ∃ f, f ∈ fs ∧ mapping_of computation f !! k = Some a) ∧
    (∀ f, f ∈ fs → FutureResult f ∈ log out.2).
Proof.
  intros Hself Hshape fs Hperm Hall out.
  unfold out. rewrite (generate_run _ _ _ _ _ _ _ gens Hself), Hshape.
  destruct gens as [|g gens'].
  { apply Permutation_nil_r in Hperm. cbn [fst snd objects log].
    eexists _, _. split; [reflexivity|]. split; [apply lookup_insert_eq|].
    rewrite Hperm. split; [done|]. split; [done|].
    split; [by intros k a; rewrite lookup_empty|].
    by intros f Hf%elem_of_nil. }
  cbv zeta. fold fs.
  rewrite drained_all_succeed by (by apply (succeeds_Permutation _ fs)).
  cbn [fst snd objects log].
  eexists _, _. split; [reflexivity|]. split; [apply lookup_insert_eq|].
  split; [reflexivity|]. split; [|split].
  - rewrite dom_updated, dom_empty_L, (left_id_L ∅ (∪)).
    apply set_eq. intros k. rewrite !elem_of_union_list.
    split; intros (X & HX & Hk); exists X; (split; [|done]);
      [by rewrite <- Hperm | by rewrite Hperm].
  - intros k a Hk. apply updated_lookup_Some in Hk as [Hk|(d & Hd & Hk)];
      [by rewrite lookup_empty in Hk|].
    apply list_elem_of_fmap in Hd as (f & -> & Hf).
    exists f. split; [by rewrite <- Hperm | done].
  - intros f Hf. apply elem_of_app. right. apply elem_of_cons. right.
    apply elem_of_app. right. apply elem_of_app. left.
    apply list_elem_of_fmap. exists f. split; [done | by rewrite Hperm].
Qed.

(** C7. When the mappings of the models have pairwise disjoint keys, two
    orders of completion give the same outcome and the same store, hence
    the same mapping: the order of the merge decides no value. *)
Theorem merge_is_order_independent
    as_completed1 as_completed2 self cn cd x_al x_ac s gens :
  objects s !! self = Some (GeneratorObj gens) →
  let fs := futures_for (length (submits (log s))) gens cn cd x_al x_ac in
  as_completed1 fs ≡ₚ fs →
  as_completed2 fs ≡ₚ fs →
  Forall (succeeds computation) fs →
  (∀ f1 f2, f1 ∈ fs → f2 ∈ fs → f1 ≠ f2 →
            dom (mapping_of computation f1) ## dom (mapping_of computation f2)) →
  let out1 := generate computation as_completed1 self cn cd x_al x_ac s in
  let out2 := generate computation as_completed2 self cn cd x_al x_ac s in
  out1.1 = out2.1 ∧ objects out1.2 = objects out2.2.
Proof.
  intros Hself fs Hp1 Hp2 Hall Hdis out1 out2. unfold out1, out2.
  rewrite !(generate_run _ _ _ _ _ _ _ gens Hself).
  destruct gens as [|g gens']; [done|].
  destruct (shape x_al) as [|[|n] sh]; [done..|]. cbv zeta. fold fs.
  rewrite !drained_all_succeed by (by eapply succeeds_Permutation).
  cbn [fst snd objects]. split; [done|]. do 2 f_equal.
  assert (Hnd : NoDup fs) by apply NoDup_futures_for.
  rewrite <- (updated_Permutation _ fs (as_completed1 fs)) by done.
  by rewrite <- (updated_Permutation _ fs (as_completed2 fs)) by done.
Qed.

(** C8. [generate] leaves the store it found as it was: the [Generator]
    instance still holds the same list of models and no object that
    existed before the call has changed, whether the call returns or
    raises; the mapping it returns is a dictionary allocated by this call. *)
Theorem generate_preserves_store
    as_completed self cn cd x_al x_ac s gens :
  objects s !! self = Some (GeneratorObj gens) →
  let out := generate computation as_completed self cn cd x_al x_ac s in
  objects out.2 !! self = Some (GeneratorObj gens) ∧
  (∀ l, l ∈ dom (objects s) → objects out.2 !! l = objects s !! l) ∧
  (∀ r, out.1 = inr r →
        (r ∉ dom (objects s)) ∧ ∃ d, objects out.2 !! r = Some (Dict d)).
Proof.
  intros Hself out.
  assert (Hfresh := is_fresh (dom (objects s))).
  set (r := fresh (dom (objects s))) in *.
  assert (Hframe : ∃ o a l,
    out = (o, State (<[r:=Dict a]> (objects s)) l) ∧
    ∀ r', o = inr r' → r' = r).
  { unfold out. rewrite (generate_run _ _ _ _ _ _ _ gens Hself). fold r.
    destruct gens as [|g gens'];
      [eexists _, _, _; split; [reflexivity | intros ? ?; congruence]|].
    destruct (shape x_al) as [|[|n] sh];
      [eexists _, _, _; split; [reflexivity | intros ? ?; congruence]..|].
    cbv zeta. destruct (drained computation _ ∅) as [[o a] c].
    eexists _, _, _. split; [reflexivity|].
    intros r' Hr'. destruct o; congruence. }
  destruct Hframe as (o & a & l & -> & Hr). cbn [fst snd objects].
  assert (Hne : ∀ l', l' ∈ dom (objects s) → r ≠ l') by (intros l' ? <-; done).
  split; [|split].
  - rewrite lookup_insert_ne; [done|]. apply Hne, elem_of_dom. by eexists.
  - intros l' Hl'. rewrite lookup_insert_ne; [done|]. by apply Hne.
  - intros r' Ho. apply Hr in Ho as ->. split; [done|].
    exists a. apply lookup_insert_eq.
Qed.

End Generation.

(** ** Construction, then generation *)

Section Pass.

Variable read_file_instr :
  string → float → float → exception + gmap string (ndarray float).
Variable computation : future float → exception + gmap string (ndarray float).

(** C10. The construction keeps every occurrence of a repeated name: the
    list has as many instances as the configuration has names, of the
    classes named, in order.  Then [generate], when all computations
    return, raises nothing and merges by overwriting: for each key, the
    value in the mapping it returns is the one of the last completed
    future that has the key. *)
Theorem duplicates_kept_and_overwritten (p : Parameters float) s path
    (sp : gmap string (ndarray float)) vs
    as_completed cn cd x_al x_ac n sh :
  error_spectrum p = Some path →
  read_file_instr path (delta_al p) (len_repeat p) = inr sp →
  Forall (slices_available sp) vs →
  noise p = __name__ <$> vs →
  shape x_al = S n :: sh →
  let made := Generator read_file_instr p s in
  ∃ self gens,
    made.1 = inr self ∧
    objects made.2 !! self = Some (GeneratorObj gens) ∧
    length gens = length (noise p) ∧
    class_of <$> gens = vs ∧
    let fs := futures_for (length (submits (log made.2))) gens
                          cn cd x_al x_ac in
    let out := generate computation as_completed self cn cd x_al x_ac
                        made.2 in
    ∀ l1 f l2 k a,
      as_completed fs ≡ₚ fs →
      Forall (succeeds computation) fs →
      as_completed fs = l1 ++ f :: l2 →
      mapping_of computation f !! k = Some a →
      (∀ f', f' ∈ l2 → mapping_of computation f' !! k = None) →
      ∃ r d, out.1 = inr r ∧ objects out.2 !! r = Some (Dict d) ∧
             d !! k = Some a.
Proof.
  intros Hpath Hread Hsp Hnoise Hshape made.
  destruct (Generator_known read_file_instr p s path sp vs) as (gens & Hrun & Hall);
    [done..|].
  unfold made. rewrite Hrun. cbn [fst snd objects log].
  eexists _, gens. split; [reflexivity|].
  split; [apply lookup_insert_eq|].
  split; [rewrite Hnoise, length_fmap; symmetry; by eapply Forall2_length|].
  split.
  { clear -Hall. induction Hall as [|v m vs ms [Hm _] _ IH]; [done|].
    cbn. by rewrite Hm, IH. }
  intros l1 f l2 k a Hperm Hok Hsplit Hk Hlast.
  erewrite (generate_run computation) by apply lookup_insert_eq. rewrite Hshape.
  cbn [log] in *.
  set (fs := futures_for _ gens cn cd x_al x_ac) in *.
  destruct gens as [|g gens'].
  { rewrite Hsplit in Hperm. apply Permutation_nil_r in Hperm.
    by destruct l1. }
  cbv zeta. fold fs.
  rewrite drained_all_succeed
    by (by apply (succeeds_Permutation computation _ fs)).
  cbn [fst snd objects].
  eexists _, _. split; [reflexivity|]. split; [apply lookup_insert_eq|].
  rewrite Hsplit, fmap_app, fmap_cons.
  apply updated_last_wins; [done|].
  intros d' Hd'. apply list_elem_of_fmap in Hd' as (f' & -> & Hf').
  by apply Hlast.
Qed.

End Pass.

End Facts.

(** ** The scenario *)

Lemma scenario_table_is_calibration_table :
  calibration_table Scenario.table.
Proof.
  intros c Hc. unfold channels in Hc.
  repeat (apply elem_of_cons in Hc as [->|Hc]; [by eexists|]).
  by apply elem_of_nil in Hc.
Qed.

Lemma scenario_slices_available vs :
  Forall (slices_available Scenario.table) vs.
Proof.
  apply Forall_forall. intros v _.
  apply calibration_table_slices, scenario_table_is_calibration_table.
Qed.

Lemma scenario_unknown_name : unknown_name "Bogus".
Proof. by intros []. Qed.

Lemma generate_raises_when_a_computation_raises_witness :
  ∃ f' e',
    f' ∈ Scenario.futures ["Altimeter"; "Timing"] ∧
    Scenario.computation f' = inl e' ∧
    (generate Scenario.computation reverse 0 1 1000%Z Scenario.along_track
       Scenario.across_track
       (Scenario.constructed ["Altimeter"; "Timing"])).1 = inl e'.
Proof.
  apply (generate_raises_when_a_computation_raises
           Scenario.computation reverse 0 1%Z 1000%Z Scenario.along_track
           Scenario.across_track
           (Scenario.constructed ["Altimeter"; "Timing"])
           (Scenario.active ["Altimeter"; "Timing"]) 2 []
           Scenario.timing_future (ExternalError "worker failed")).
  - vm_compute. reflexivity.
  - reflexivity.
  - apply reverse_Permutation.
  - vm_compute. repeat constructor.
  - reflexivity.
Defined.

Lemma generate_degenerate_pass_witness :
  ∃ r, (r ∉ dom (objects (Scenario.constructed ["Altimeter"; "Karin"]))) ∧
    generate Scenario.computation reverse 0 1 1000%Z Scenario.no_track
      Scenario.across_track (Scenario.constructed ["Altimeter"; "Karin"])
    = (inr r,
       State (<[r:=Dict ∅]>
                (objects (Scenario.constructed ["Altimeter"; "Karin"])))
             (log (Scenario.constructed ["Altimeter"; "Karin"]))).
Proof.
  apply (generate_degenerate_pass
           Scenario.computation reverse 0 1%Z 1000%Z Scenario.no_track
           Scenario.across_track
           (Scenario.constructed ["Altimeter"; "Karin"])
           (Scenario.active ["Altimeter"; "Karin"])).
  - vm_compute. reflexivity.
  - right. exists []. reflexivity.
Defined.

Lemma generate_submits_one_task_per_model_witness :
  ∃ ts,
    submits (log (generate Scenario.computation reverse 0 1 1000%Z
                    Scenario.along_track Scenario.across_track
                    (Scenario.constructed ["Altimeter"; "Karin"])).2)
    = submits (log (Scenario.constructed ["Altimeter"; "Karin"])) ++ ts ∧
    Forall2 (λ item t,
               target t = item ∧
               args t = argument_value 1 1000%Z Scenario.along_track
                          Scenario.across_track
                          <$> spec_call_arguments (class_of item))
            (Scenario.active ["Altimeter"; "Karin"]) ts.
Proof.
  apply (generate_submits_one_task_per_model
           Scenario.computation reverse 0 1%Z 1000%Z Scenario.along_track
           Scenario.across_track
           (Scenario.constructed ["Altimeter"; "Karin"])
           (Scenario.active ["Altimeter"; "Karin"]) 2 []).
  - vm_compute. reflexivity.
  - reflexivity.
Defined.

Lemma generate_preserves_store_witness :
  let s := Scenario.constructed ["Altimeter"; "Timing"] in
  let out := generate Scenario.computation reverse 0 1 1000%Z
               Scenario.along_track Scenario.across_track s in
  objects out.2 !! 0
  = Some (GeneratorObj (Scenario.active ["Altimeter"; "Timing"])) ∧
  (∀ l, l ∈ dom (objects s) → objects out.2 !! l = objects s !! l) ∧
  (∀ r, out.1 = inr r →
        (r ∉ dom (objects s)) ∧ ∃ d, objects out.2 !! r = Some (Dict d)).
Proof.
  apply (generate_preserves_store
           Scenario.computation reverse 0 1%Z 1000%Z Scenario.along_track
           Scenario.across_track
           (Scenario.constructed ["Altimeter"; "Timing"])
           (Scenario.active ["Altimeter"; "Timing"])).
  vm_compute. reflexivity.
Defined.

Lemma scenario_all_succeed :
  Forall (succeeds Scenario.computation)
         (Scenario.futures ["Altimeter"; "Karin"]).
Proof. repeat constructor; by eexists. Qed.

Lemma generate_merges_every_model_witness :
  let s := Scenario.constructed ["Altimeter"; "Karin"] in
  let fs := Scenario.futures ["Altimeter"; "Karin"] in
  let out := generate Scenario.computation reverse 0 1 1000%Z
               Scenario.along_track Scenario.across_track s in
  ∃ r d,
    out.1 = inr r ∧ objects out.2 !! r = Some (Dict d) ∧
    d = updated ∅ (mapping_of Scenario.computation <$> reverse fs) ∧
    dom d = ⋃ (dom <$> (mapping_of Scenario.computation <$> fs)) ∧
    (∀ k a, d !! k = Some a →
            ∃ f, f ∈ fs ∧ mapping_of Scenario.computation f !! k = Some a) ∧
    (∀ f, f ∈ fs → FutureResult f ∈ log out.2).
Proof.
  apply (generate_merges_every_model
           Scenario.computation reverse 0 1%Z 1000%Z Scenario.along_track
           Scenario.across_track
           (Scenario.constructed ["Altimeter"; "Karin"])
           (Scenario.active ["Altimeter"; "Karin"]) 2 []).
  - vm_compute. reflexivity.
  - reflexivity.
  - apply reverse_Permutation.
  - apply scenario_all_succeed.
Defined.

Lemma scenario_fields_disjoint f1 f2 :
  f1 ∈ Scenario.futures ["Altimeter"; "Karin"] →
  f2 ∈ Scenario.futures ["Altimeter"; "Karin"] →
  f1 ≠ f2 →
  dom (mapping_of Scenario.computation f1)
  ## dom (mapping_of Scenario.computation f2).
Proof.
  intros H1 H2 Hne.
  apply elem_of_cons in H1 as [->|H1]; apply elem_of_cons in H2 as [->|H2];
    try done;
    repeat match goal with
           | H : _ ∈ _ :: _ |- _ => apply elem_of_cons in H as [->|H]
           | H : _ ∈ [] |- _ => by apply elem_of_nil in H
           end; try done;
    match goal with
    | |- dom (mapping_of _ ?a) ## dom (mapping_of _ ?b) =>
        first
          [ change (mapping_of Scenario.computation a)
              with (Scenario.field "simulated_error_altimeter" a);
            change (mapping_of Scenario.computation b)
              with (Scenario.field "simulated_error_karin" b)
          | change (mapping_of Scenario.computation a)
              with (Scenario.field "simulated_error_karin" a);
            change (mapping_of Scenario.computation b)
              with (Scenario.field "simulated_error_altimeter" b) ]
    end;
    unfold Scenario.field; rewrite !dom_singleton_L;
    apply disjoint_singleton_l; rewrite elem_of_singleton; discriminate.
Qed.

Lemma merge_is_order_independent_witness :
  let s := Scenario.constructed ["Altimeter"; "Karin"] in
  let out1 := generate Scenario.computation reverse 0 1 1000%Z
                Scenario.along_track Scenario.across_track s in
  let out2 := generate Scenario.computation id 0 1 1000%Z
                Scenario.along_track Scenario.across_track s in
  out1.1 = out2.1 ∧ objects out1.2 = objects out2.2.
Proof.
  apply (merge_is_order_independent
           Scenario.computation reverse id 0 1%Z 1000%Z Scenario.along_track
           Scenario.across_track
           (Scenario.constructed ["Altimeter"; "Karin"])
           (Scenario.active ["Altimeter"; "Karin"])).
  - vm_compute. reflexivity.
  - apply reverse_Permutation.
  - reflexivity.
  - apply scenario_all_succeed.
  - apply scenario_fields_disjoint.
Defined.

Lemma unknown_name_fails_construction_witness :
  let p := Scenario.configuration (Some "error_spectrum.nc")
             ["Altimeter"; "Bogus"] in
  let out := Generator Scenario.read_file_instr p Scenario.start in
  (∃ e, out.1 = inl e) ∧
  (∀ path sp vs rest,
     error_spectrum p = Some path →
     Scenario.read_file_instr path (delta_al p) (len_repeat p) = inr sp →
     Forall (slices_available sp) vs →
     noise p = (__name__ <$> vs) ++ "Bogus" :: rest →
     out.1 = inl (ValueError ("unknown error generation class: " +:+ "Bogus"))).
Proof.
  apply (unknown_name_fails_construction Scenario.read_file_instr
           (Scenario.configuration (Some "error_spectrum.nc")
              ["Altimeter"; "Bogus"])
           Scenario.start "Bogus").
  - simpl. repeat constructor.
  - apply scenario_unknown_name.
Defined.

Lemma construction_builds_active_models_witness :
  let p := Scenario.configuration (Some "error_spectrum.nc")
             ["RollPhase"; "Altimeter"; "Karin"] in
  let out := Generator Scenario.read_file_instr p Scenario.start in
  ∃ self gens,
    out.1 = inr self ∧ (self ∉ dom (objects Scenario.start)) ∧
    objects out.2 !! self = Some (GeneratorObj gens) ∧
    length gens = length [VRollPhase; VAltimeter; VKarin] ∧
    Forall2 (instance_of p Scenario.table)
            [VRollPhase; VAltimeter; VKarin] gens.
Proof.
  apply (construction_builds_active_models Scenario.read_file_instr
           (Scenario.configuration (Some "error_spectrum.nc")
              ["RollPhase"; "Altimeter"; "Karin"])
           Scenario.start "error_spectrum.nc" Scenario.table
           [VRollPhase; VAltimeter; VKarin]).
  - reflexivity.
  - reflexivity.
  - apply scenario_slices_available.
  - reflexivity.
Defined.

Lemma construction_reads_spectrum_first_witness :
  let out := Generator Scenario.read_file_instr
               (Scenario.configuration None ["Bogus"]) Scenario.start in
  out.1 = inl AssertionError ∧ log out.2 = log Scenario.start.
Proof.
  exact (construction_reads_spectrum_first Scenario.read_file_instr
           (Scenario.configuration None ["Bogus"]) Scenario.start).
Defined.

Lemma duplicates_kept_and_overwritten_witness :
  let p := Scenario.configuration (Some "error_spectrum.nc")
             ["Altimeter"; "Altimeter"] in
  let made := Generator Scenario.read_file_instr p Scenario.start in
  ∃ self gens,
    made.1 = inr self ∧
    objects made.2 !! self = Some (GeneratorObj gens) ∧
    length gens = length (noise p) ∧
    class_of <$> gens = [VAltimeter; VAltimeter] ∧
    let fs := futures_for (length (submits (log made.2))) gens 1 1000%Z
                Scenario.along_track Scenario.across_track in
    let out := generate Scenario.computation reverse self 1 1000%Z
                 Scenario.along_track Scenario.across_track made.2 in
    ∀ l1 f l2 k a,
      reverse fs ≡ₚ fs →
      Forall (succeeds Scenario.computation) fs →
      reverse fs = l1 ++ f :: l2 →
      mapping_of Scenario.computation f !! k = Some a →
      (∀ f', f' ∈ l2 → mapping_of Scenario.computation f' !! k = None) →
      ∃ r d, out.1 = inr r ∧ objects out.2 !! r = Some (Dict d) ∧
             d !! k = Some a.
Proof.
  apply (duplicates_kept_and_overwritten Scenario.read_file_instr
           Scenario.computation
           (Scenario.configuration (Some "error_spectrum.nc")
              ["Altimeter"; "Altimeter"])
           Scenario.start "error_spectrum.nc" Scenario.table
           [VAltimeter; VAltimeter] reverse 1%Z 1000%Z
           Scenario.along_track Scenario.across_track 2 []).
  - reflexivity.
  - reflexivity.
  - apply scenario_slices_available.
  - reflexivity.
  - reflexivity.
Defined.

(** The two altimeter instances of a configuration that names the class
    twice both write [simulated_error_altimeter]; the mapping returned
    holds the value of the future that completed last, silently. *)
Example scenario_duplicate_overwrites :
  let s := Scenario.constructed ["Altimeter"; "Altimeter"] in
  let out := generate Scenario.computation reverse 0 1 1000%Z
               Scenario.along_track Scenario.across_track s in
  length (Scenario.active ["Altimeter"; "Altimeter"]) = 2 ∧
  out.1 = inr 1 ∧
  objects out.2 !! 1
  = Some (Dict {[ "simulated_error_altimeter" := Scenario.array1 [0%Z] ]}).
Proof. vm_compute. done. Qed.

(** The two scenarios of the specification, evaluated. *)
Example scenario_altimeter_karin :
  let out := generate Scenario.computation reverse 0 1 1000%Z
               Scenario.along_track Scenario.across_track
               (Scenario.constructed ["Altimeter"; "Karin"]) in
  out.1 = inr 1 ∧
  objects out.2 !! 1
  = Some (Dict {[ "simulated_error_altimeter" := Scenario.array1 [0%Z];
                  "simulated_error_karin" := Scenario.array1 [1%Z] ]}).
Proof. vm_compute. done. Qed.

Example scenario_bogus :
  (Generator Scenario.read_file_instr
     (Scenario.configuration (Some "error_spectrum.nc") ["Bogus"])
     Scenario.start).1
  = inl (ValueError "unknown error generation class: Bogus").
Proof. reflexivity. Qed.

(** A failing worker: the caller gets the exception, and the dictionary
    that already held the altimeter's field stays behind in the store,
    unreachable. *)
Example scenario_failing_worker :
  let out := generate Scenario.computation id 0 1 1000%Z
               Scenario.along_track Scenario.across_track
               (Scenario.constructed ["Altimeter"; "Timing"]) in
  out.1 = inl (ExternalError "worker failed") ∧
  objects out.2 !! 1
  = Some (Dict {[ "simulated_error_altimeter" := Scenario.array1 [0%Z] ]}).
Proof. vm_compute. done. Qed.

(** * More on the generator *)

Section GeneratorFurther.

Context {float : Type}.

Variable computation : future float → exception + gmap string (ndarray float).

Implicit Types (s : state float) (gens : list (model float)).
Implicit Types (x_al x_ac : ndarray float) (cd : float) (cn : Z).

Lemma drained_until_failure (l1 l2 : list (future float)) f e
    (acc : gmap string (ndarray float)) :
  Forall (succeeds computation) l1 →
  computation f = inl e →
  drained computation (l1 ++ f :: l2) acc
  = (inl e, updated acc (mapping_of computation <$> l1), l1 ++ [f]).
Proof.
  intros Hall He. revert acc.
  induction Hall as [|g rest [d Hd] _ IH]; intros acc.
  - cbn [app drained]. by rewrite He.
  - cbn [app drained fmap list_fmap]. unfold mapping_of at 1.
    rewrite Hd, IH. done.
Qed.

Lemma generate_store as_completed self cn cd x_al x_ac s gens :
  objects s !! self = Some (GeneratorObj gens) →
  ∃ o a l,
    generate computation as_completed self cn cd x_al x_ac s
    = (o, State (<[fresh (dom (objects s)):=Dict a]> (objects s)) l) ∧
    ∀ r, o = inr r → r = fresh (dom (objects s)).
Proof.
  intros Hself. rewrite (generate_run _ _ _ _ _ _ _ _ gens Hself).
  destruct gens as [|g gens'];
    [eexists _, _, _; split; [reflexivity | intros ? ?; congruence]|].
  destruct (shape x_al) as [|[|n] sh];
    [eexists _, _, _; split; [reflexivity | intros ? ?; congruence]..|].
  cbv zeta. destruct (drained computation _ ∅) as [[o a] c].
  eexists _, _, _. split; [reflexivity|].
  intros r Hr. destruct o; congruence.
Qed.

(** X1. The exception that leaves [generate] is the one of the first
    future, in the order of completion, whose computation raised: the
    results of the futures completed before it were asked for, its own
    was, none after it is, and the worker client is left. *)
Theorem generate_aborts_at_first_failure
    as_completed self cn cd x_al x_ac s gens n sh l1 f l2 e :
  objects s !! self = Some (GeneratorObj gens) →
  gens ≠ [] →
  shape x_al = S n :: sh →
  let fs := futures_for (length (submits (log s))) gens cn cd x_al x_ac in
  as_completed fs = l1 ++ f :: l2 →
  Forall (succeeds computation) l1 →
  computation f = inl e →
  let out := generate computation as_completed self cn cd x_al x_ac s in
  out.1 = inl e ∧
  log out.2
  = log s ++ WorkerClientEnter
      :: ((λ item, Submit (bind_task item cn cd x_al x_ac)) <$> gens)
      ++ (FutureResult <$> l1 ++ [f]) ++ [WorkerClientExit].
Proof.
  intros Hself Hne Hshape fs Hsplit Hall He out. unfold out.
  rewrite (generate_run _ _ _ _ _ _ _ _ gens Hself), Hshape.
  destruct gens as [|g gens']; [done|]. cbv zeta. fold fs.
  rewrite Hsplit, (drained_until_failure l1 l2 f e) by done.
  done.
Qed.

(** X2. When every computation returns, the events of a call are, in
    this order: the worker client is entered, one task is submitted by
    model, the result of every future is asked for in the order of
    completion, the worker client is left.  No result is asked for before
    the last task is submitted. *)
Theorem generate_fans_out_then_in
    as_completed self cn cd x_al x_ac s gens n sh :
  objects s !! self = Some (GeneratorObj gens) →
  gens ≠ [] →
  shape x_al = S n :: sh →
  let fs := futures_for (length (submits (log s))) gens cn cd x_al x_ac in
  Forall (succeeds computation) (as_completed fs) →
  let out := generate computation as_completed self cn cd x_al x_ac s in
  log out.2
  = log s ++ WorkerClientEnter
      :: ((λ item, Submit (bind_task item cn cd x_al x_ac)) <$> gens)
      ++ (FutureResult <$> as_completed fs) ++ [WorkerClientExit].
Proof.
  intros Hself Hne Hshape fs Hall out. unfold out.
  rewrite (generate_run _ _ _ _ _ _ _ _ gens Hself), Hshape.
  destruct gens as [|g gens']; [done|]. cbv zeta. fold fs.
  by rewrite drained_all_succeed.
Qed.

(** X3. With at least one active model and an along-track array of
    dimension zero, whose shape is the empty tuple, [generate] raises
    [IndexError] and touches neither the worker client nor any model. *)
Theorem generate_scalar_along_track
    as_completed self cn cd x_al x_ac s gens :
  objects s !! self = Some (GeneratorObj gens) →
  gens ≠ [] →
  shape x_al = [] →
  let out := generate computation as_completed self cn cd x_al x_ac s in
  out.1 = inl IndexError ∧ log out.2 = log s.
Proof.
  intros Hself Hne Hshape out. unfold out.
  rewrite (generate_run _ _ _ _ _ _ _ _ gens Hself), Hshape.
  by destruct gens.
Qed.

(** X4. Two calls in sequence on the same instance, whatever their
    arguments and orders of completion, return two different
    dictionaries, and the second call leaves the dictionary returned by
    the first as it was. *)
Theorem successive_calls_do_not_share
    as_completed1 as_completed2 self cn1 cn2 cd1 cd2
    (x_al1 x_al2 x_ac1 x_ac2 : ndarray float) s gens r1 r2 :
  objects s !! self = Some (GeneratorObj gens) →
  let out1 := generate computation as_completed1 self cn1 cd1 x_al1 x_ac1 s in
  let out2 := generate computation as_completed2 self cn2 cd2 x_al2 x_ac2
                       out1.2 in
  out1.1 = inr r1 → out2.1 = inr r2 →
  r1 ≠ r2 ∧ objects out2.2 !! r1 = objects out1.2 !! r1.
Proof.
  intros Hself out1 out2 H1 H2.
  destruct (generate_store as_completed1 self cn1 cd1 x_al1 x_ac1 s gens Hself)
    as (o1 & a1 & l1 & Hrun1 & Hr1).
  assert (Hfresh := is_fresh (dom (objects s))).
  set (r := fresh (dom (objects s))) in *.
  assert (Hself1 : objects out1.2 !! self = Some (GeneratorObj gens)).
  { unfold out1. rewrite Hrun1. cbn [snd objects].
    rewrite lookup_insert_ne; [done|].
    intros <-. apply Hfresh, elem_of_dom. by eexists. }
  destruct (generate_store as_completed2 self cn2 cd2 x_al2 x_ac2 out1.2 gens
              Hself1) as (o2 & a2 & l2 & Hrun2 & Hr2).
  assert (Hfresh2 := is_fresh (dom (objects out1.2))).
  set (r' := fresh (dom (objects out1.2))) in *.
  unfold out2 in H2 |- *. rewrite Hrun2 in H2 |- *. cbn [fst snd objects] in *.
  apply Hr2 in H2 as ->.
  assert (Hin : r1 ∈ dom (objects out1.2)).
  { unfold out1 in H1 |- *. rewrite Hrun1 in H1 |- *.
    cbn [fst snd objects] in *. apply Hr1 in H1 as ->.
    apply elem_of_dom. rewrite lookup_insert_eq. by eexists. }
  assert (Hne : r1 ≠ r') by (intros ->; done).
  split; [done|]. by rewrite lookup_insert_ne.
Qed.

End GeneratorFurther.

Section ConstructionFurther.

Context {float : Type}.

Variable read_file_instr :
  string → float → float → exception + gmap string (ndarray float).

(** X5. When the dataset read from the calibration source lacks a slice
    that a named variant is constructed with, the construction raises
    [KeyError] on the first such slice, in the order in which the
    constructor call names them, provided the names before are known and
    find theirs. *)
Theorem construction_missing_slice (p : Parameters float) (s : state float)
    path (sp : gmap string (ndarray float)) vs v rest found c later :
  error_spectrum p = Some path →
  read_file_instr path (delta_al p) (len_repeat p) = inr sp →
  Forall (slices_available sp) vs →
  noise p = (__name__ <$> vs) ++ __name__ v :: rest →
  spec_required_slices v = found ++ c :: later →
  Forall (λ k, is_Some (sp !! k)) found →
  sp !! c = None →
  (Generator read_file_instr p s).1 = inl (KeyError c).
Proof.
  intros Hpath Hread Hvs Hnoise Hreq Hfound Hc.
  rewrite Generator_run, Hpath. cbv zeta. rewrite Hread, Hnoise.
  destruct (built_known p sp vs [] Hvs) as (ms & Hms & _).
  rewrite built_app, Hms. cbn [built].
  assert (Hres : resolve p sp (__name__ v) = inl (KeyError c)).
  { unfold resolve, instantiate.
    destruct v; cbn [spec_required_slices] in Hreq;
      repeat (destruct found as [|? found]; simplify_eq/=);
      repeat match goal with
             | H : Forall _ (_ :: _) |- _ =>
                 apply Forall_cons in H as [[? ?] H]
             end;
      repeat case_decide; try done;
      unfold getitem, mbind, M_bind;
      repeat match goal with
             | H : sp !! _ = _ |- _ => rewrite H
             end; done. }
  by rewrite Hres.
Qed.

End ConstructionFurther.

(** * The receiver of log records *)

Section ReceiverFacts.

Import Logbook.

Context {record : Type}.
Variable name_of : record → string.
Variable loads : list Byte.byte → exception + record.

Implicit Types (stream tail pickle : list Byte.byte).
Implicit Types (handled : list (string * record)).

Lemma byte_of_to_N (n : N) : (n < 256)%N → Byte.to_N (byte_of n) = n.
Proof.
  intros Hn. unfold byte_of.
  destruct (Byte.of_N n) as [b|] eqn:Hb.
  - by apply Byte.to_of_N.
  - apply Byte.of_N_None_iff in Hb. lia.
Qed.

Lemma unpack_pack (n : N) : (n < 4294967296)%N → unpack_L (pack_L n) = inr n.
Proof.
  intros Hn. unfold pack_L, unpack_L.
  rewrite !byte_of_to_N by (apply N.mod_lt; done).
  f_equal. zify. Z.to_euclidean_division_equations. lia.
Qed.

Lemma length_pack_L (n : N) : length (pack_L n) = 4.
Proof. done. Qed.

Lemma unpack_L_length (chunk : list Byte.byte) (n : N) :
  unpack_L chunk = inr n → length chunk = 4.
Proof. by destruct chunk as [|? [|? [|? [|? [|? ?]]]]]. Qed.

Lemma read_bytes_app (chunk stream : list Byte.byte) :
  read_bytes (length chunk) (chunk ++ stream) = (Some chunk, stream).
Proof.
  unfold read_bytes. rewrite decide_True by (rewrite length_app; lia).
  by rewrite take_app_length, drop_app_length.
Qed.

Lemma read_bytes_short n stream :
  length stream < n → read_bytes n stream = (None, []).
Proof. intros H. unfold read_bytes. by rewrite decide_False by lia. Qed.

Lemma fill_full fuel (chunk stream : list Byte.byte) :
  fill fuel (length chunk) chunk stream = Some (Got chunk, stream).
Proof. destruct fuel; simpl; by rewrite decide_False by lia. Qed.

Lemma fill_exact fuel n (chunk stream : list Byte.byte) :
  length chunk = n → fill fuel n chunk stream = Some (Got chunk, stream).
Proof. intros <-. apply fill_full. Qed.

Lemma serve_frame fuel logname pickle stream handled :
  (N.of_nat (length pickle) < 4294967296)%N →
  serve name_of loads (S fuel) logname (frame pickle ++ stream) handled
  = match loads pickle with
    | inl e => Some (inl e, handled)
    | inr rec =>
        serve name_of loads fuel logname stream
              (handle_log_record name_of logname rec handled)
    end.
Proof.
  intros Hlen. unfold frame. cbn [serve]. rewrite <- app_assoc.
  rewrite <- (length_pack_L (N.of_nat (length pickle))) at 1.
  rewrite read_bytes_app, length_pack_L.
  rewrite decide_False by lia. rewrite unpack_pack by done.
  cbv zeta. rewrite Nat2N.id, read_bytes_app, Nat.sub_diag, fill_full.
  done.
Qed.

Lemma serve_truncated fuel logname tail handled :
  truncated tail →
  serve name_of loads (S fuel) logname tail handled = Some (inr (), handled).
Proof.
  intros [Hshort|(header & rest & slen & -> & Hunpack & Hrest)]; cbn [serve].
  - by rewrite read_bytes_short.
  - assert (Hlen := unpack_L_length _ _ Hunpack).
    rewrite <- Hlen at 1. rewrite read_bytes_app, decide_False by lia.
    rewrite Hunpack. cbv zeta. by rewrite read_bytes_short.
Qed.

Lemma serve_frames fuel logname (pickles : list (list Byte.byte))
    (records : list record) tail handled :
  length pickles < fuel →
  Forall2 (λ pickle rec, loads pickle = inr rec) pickles records →
  Forall (λ pickle, (N.of_nat (length pickle) < 4294967296)%N) pickles →
  serve name_of loads fuel logname (concat (frame <$> pickles) ++ tail)
        handled
  = match fuel - length pickles with
    | 0 => None
    | S fuel' =>
        serve name_of loads (S fuel') logname tail
          (foldl (λ h rec, handle_log_record name_of logname rec h)
                 handled records)
    end.
Proof.
  intros Hfuel Hloads. revert fuel handled Hfuel.
  induction Hloads as [|pickle rec pickles records Hrec _ IH];
    intros fuel handled Hfuel Hlen.
  - cbn [length] in *. rewrite Nat.sub_0_r. by destruct fuel; [lia|].
  - apply Forall_cons in Hlen as [Hp Hlen].
    destruct fuel as [|fuel]; [cbn in Hfuel; lia|].
    cbn [fmap list_fmap concat]. rewrite <- app_assoc.
    rewrite serve_frame, Hrec by done.
    cbn [length] in Hfuel. rewrite IH by (done || lia). done.
Qed.

Lemma handled_names logname (records : list record) handled :
  foldl (λ h rec, handle_log_record name_of logname rec h) handled records
  = handled ++ ((λ rec, (default (name_of rec) logname, rec)) <$> records).
Proof.
  revert handled. induction records as [|rec records IH]; intros handled.
  - by rewrite app_nil_r.
  - cbn [foldl fmap list_fmap]. rewrite IH. unfold handle_log_record.
    rewrite <- app_assoc. by destruct logname.
Qed.

Lemma length_frames (pickles : list (list Byte.byte)) :
  length pickles ≤ length (concat (frame <$> pickles)).
Proof.
  induction pickles as [|p ps IH]; [done|].
  cbn [fmap list_fmap concat length]. unfold frame at 1.
  rewrite !length_app, length_pack_L. lia.
Qed.



Lemma unpack_L_four (chunk : list Byte.byte) :
  length chunk = 4 → ∃ n, unpack_L chunk = inr n.
Proof.
  destruct chunk as [|? [|? [|? [|? [|? ?]]]]]; try done. by eexists.
Qed.

Lemma serve_total fuel logname stream handled :
  length stream < fuel →
  ∃ o more,
    serve name_of loads fuel logname stream handled
    = Some (o, handled ++ more) ∧
    (o = inr () ∨ ∃ chunk e, loads chunk = inl e ∧ o = inl e) ∧
    Forall (λ entry, ∃ rec, entry = (default (name_of rec) logname, rec))
           more.
Proof.
  revert stream handled.
  induction fuel as [|fuel IH]; intros stream handled Hfuel; [lia|].
  assert (Hstop : ∀ o : exception + (),
    (o = inr () ∨ ∃ chunk e, loads chunk = inl e ∧ o = inl e) →
    ∃ o' more, Some (o, handled) = Some (o', handled ++ more) ∧
      (o' = inr () ∨ ∃ chunk e, loads chunk = inl e ∧ o' = inl e) ∧
      Forall (λ entry, ∃ rec, entry = (default (name_of rec) logname, rec))
             more).
  { intros o Ho. exists o, []. by rewrite app_nil_r. }
  cbn [serve]. unfold read_bytes at 1.
  destruct (decide (4 ≤ length stream)) as [H4|H4]; [|by apply Hstop; left].
  rewrite decide_False by (rewrite length_take; lia).
  destruct (unpack_L_four (take 4 stream)) as [slen ->];
    [rewrite length_take; lia|].
  cbv zeta. unfold read_bytes.
  destruct (decide (N.to_nat slen ≤ length (drop 4 stream))) as [Hs|Hs];
    [|by apply Hstop; left].
  rewrite fill_exact by (rewrite length_take; lia).
  destruct (loads _) as [e|rec] eqn:Hloads;
    [apply Hstop; right; by eexists _, _|].
  destruct (IH (drop (N.to_nat slen) (drop 4 stream))
               (handle_log_record name_of logname rec handled))
    as (o & more & Hrun & Ho & Hmore).
  { rewrite !length_drop. lia. }
  exists o, ((default (name_of rec) logname, rec) :: more).
  split; [|split; [done|constructor; [by eexists | done]]].
  rewrite Hrun. unfold handle_log_record. rewrite <- app_assoc.
  by destruct logname.
Qed.


End ReceiverFacts.

(** * The configuration of the loggers *)

Section LoggerFacts.

Import Logbook.

Implicit Types (st : logging) (lg : logger) (name : string).
Implicit Types (srv : string * Z * Z).

Lemma addHandler_nonempty ref lg : handlers (addHandler ref lg) ≠ [].
Proof.
  unfold addHandler. case_decide as Hin.
  - intros Hnil. rewrite Hnil in Hin. by apply elem_of_nil in Hin.
  - cbn. by destruct (handlers lg).
Qed.

Lemma getLogger_loggers name st :
  loggers (getLogger name st).2
  = <[name:=(getLogger name st).1]> (loggers st).
Proof.
  unfold getLogger. destruct (loggers st !! name) as [lg|] eqn:Hlg; cbn.
  - by rewrite insert_id.
  - done.
Qed.

Lemma getLogger_handlers name st :
  handlers (getLogger name st).1 = handlers_of name st.
Proof.
  unfold getLogger, handlers_of. by destruct (loggers st !! name).
Qed.

Lemma getLogger_level name st :
  logger_level (getLogger name st).1 = level_of name st.
Proof.
  unfold getLogger, level_of. by destruct (loggers st !! name).
Qed.

Lemma getLogger_handler_objects name st :
  handler_objects (getLogger name st).2 = handler_objects st.
Proof. unfold getLogger. by destruct (loggers st !! name). Qed.

(** What [_config_logger] leaves, for a handler and for a stream. *)
Lemma config_handler ref level name st :
  _config_logger (IsHandler ref) level name st
  = Logging
      (<[name:=
          let lg := addHandler ref
                      (Logger true (handlers_of name st) (level_of name st)) in
          if decide (level = 0%Z) then lg
          else Logger (propagate lg) (handlers lg) level]> (loggers st))
      (alter (λ h, Handler (kind h) (Some tornado_formatter)) ref
             (handler_objects st)).
Proof.
  unfold _config_logger.
  pose proof (getLogger_loggers name st) as Hl.
  pose proof (getLogger_handlers name st) as Hh.
  pose proof (getLogger_level name st) as Hv.
  pose proof (getLogger_handler_objects name st) as Ho.
  destruct (getLogger name st) as [lg st']. cbn [fst snd] in *.
  unfold set_logger, setFormatter. cbn [loggers handler_objects].
  rewrite Hl, Hh, Hv, Ho, insert_insert_eq. done.
Qed.

Lemma config_stream io level name st :
  _config_logger (IO io) level name st
  = let ref := fresh (dom (handler_objects st)) in
    Logging
      (<[name:=
          let lg := addHandler ref
                      (Logger true (handlers_of name st) (level_of name st)) in
          if decide (level = 0%Z) then lg
          else Logger (propagate lg) (handlers lg) level]> (loggers st))
      (<[ref:=Handler (StreamHandler io) (Some tornado_formatter)]>
         (handler_objects st)).
Proof.
  unfold _config_logger.
  pose proof (getLogger_loggers name st) as Hl.
  pose proof (getLogger_handlers name st) as Hh.
  pose proof (getLogger_level name st) as Hv.
  pose proof (getLogger_handler_objects name st) as Ho.
  destruct (getLogger name st) as [lg st']. cbn [fst snd] in *.
  unfold new_handler, set_logger, setFormatter.
  cbn [loggers handler_objects]. cbv zeta.
  rewrite Hl, Hh, Hv, Ho, insert_insert_eq.
  by rewrite alter_insert_eq.
Qed.

Lemma config_configured stream level name st :
  configured name (_config_logger stream level name st).
Proof.
  destruct stream as [io|ref];
    [rewrite config_stream | rewrite config_handler];
    cbv zeta; eexists; (split; [apply lookup_insert_eq|]);
    case_decide; cbn [handlers]; apply addHandler_nonempty.
Qed.

Lemma config_other stream level name st other :
  other ≠ name →
  loggers (_config_logger stream level name st) !! other
  = loggers st !! other.
Proof.
  intros Hne.
  destruct stream as [io|ref];
    [rewrite config_stream | rewrite config_handler];
    cbv zeta; cbn [loggers]; by rewrite lookup_insert_ne.
Qed.

(** One turn of the loop of [setup_worker_logging]. *)
Lemma worker_loop_cons name rest srv st :
  worker_loop (name :: rest) srv st
  = worker_loop rest srv
      (match handlers_of name st with
       | _ :: _ => (getLogger name st).2
       | [] =>
           let st1 := (getLogger name st).2 in
           let ref := fresh (dom (handler_objects st1)) in
           _config_logger (IsHandler ref) srv.2 name
             (Logging (loggers st1)
                (<[ref:=Handler (SocketHandler srv.1.1 srv.1.2) None]>
                   (handler_objects st1)))
       end).
Proof.
  cbn [worker_loop]. rewrite <- getLogger_handlers.
  destruct (getLogger name st) as [lg st1]. cbn [fst snd].
  by destruct (handlers lg).
Qed.

Lemma worker_step_configured name rest srv st :
  configured name st →
  worker_loop (name :: rest) srv st = worker_loop rest srv st.
Proof.
  intros (lg & Hlg & Hne). rewrite worker_loop_cons.
  unfold handlers_of, getLogger. rewrite Hlg. cbn.
  by destruct (handlers lg).
Qed.

Lemma worker_loop_noop names srv st :
  Forall (λ name, configured name st) names → worker_loop names srv st = st.
Proof.
  induction 1 as [|name rest Hname _ IH]; [done|].
  by rewrite worker_step_configured.
Qed.

Lemma worker_loop_keeps names srv st name lg :
  loggers st !! name = Some lg → handlers lg ≠ [] →
  loggers (worker_loop names srv st) !! name = Some lg.
Proof.
  intros Hlg Hne. revert st Hlg.
  induction names as [|n rest IH]; intros st Hlg; [done|].
  rewrite worker_loop_cons. apply IH.
  destruct (decide (n = name)) as [->|Hn].
  - unfold handlers_of, getLogger. rewrite Hlg. cbn.
    by destruct (handlers lg).
  - destruct (handlers_of n st).
    + cbv zeta. rewrite config_other by done. cbn [loggers].
      rewrite getLogger_loggers. by rewrite lookup_insert_ne.
    + rewrite getLogger_loggers. by rewrite lookup_insert_ne.
Qed.

Lemma worker_loop_configures names srv st name :
  name ∈ names → configured name (worker_loop names srv st).
Proof.
  revert st. induction names as [|n rest IH]; intros st Hin;
    [by apply elem_of_nil in Hin|].
  rewrite worker_loop_cons.
  destruct (decide (name = n)) as [->|Hne].
  - clear IH Hin.
    assert (Hconf : configured n
      (match handlers_of n st with
       | _ :: _ => (getLogger n st).2
       | [] =>
           let st1 := (getLogger n st).2 in
           let ref := fresh (dom (handler_objects st1)) in
           _config_logger (IsHandler ref) srv.2 n
             (Logging (loggers st1)
                (<[ref:=Handler (SocketHandler srv.1.1 srv.1.2) None]>
                   (handler_objects st1)))
       end)).
    { destruct (handlers_of n st) as [|r rs] eqn:Hh.
      - apply config_configured.
      - unfold handlers_of in Hh. unfold getLogger, configured.
        destruct (loggers st !! n) as [lg|] eqn:Hlg; [|done].
        cbn in *. exists lg. by rewrite Hh. }
    destruct Hconf as (lg & Hlg & Hnonempty).
    exists lg. split; [|done]. by apply worker_loop_keeps.
  - apply IH. apply elem_of_cons in Hin as [?|?]; done.
Qed.

(** X9. After one call of [setup_worker_logging], a further call, even
    for another log server or another level, changes nothing: the
    configuration of a worker holds for the life of the process. *)
Theorem worker_logging_is_set_once package srv1 srv2 st :
  setup_worker_logging package srv2 (setup_worker_logging package srv1 st)
  = setup_worker_logging package srv1 st.
Proof.
  unfold setup_worker_logging. apply worker_loop_noop.
  repeat constructor; apply worker_loop_configures; set_solver.
Qed.

(** X10. A logger that already has a handler is left as it is by
    [setup_worker_logging]: no socket handler is added to it, and neither
    its level nor its propagation is set. *)
Theorem worker_logging_keeps_configured_logger package srv st name lg :
  loggers st !! name = Some lg → handlers lg ≠ [] →
  loggers (setup_worker_logging package srv st) !! name = Some lg.
Proof. apply worker_loop_keeps. Qed.

(** X11. In the process that ran [setup], [setup_worker_logging]
    changes nothing: the two loggers have the stream handler that [setup]
    gave them, so that no socket handler is installed. *)
Theorem worker_logging_after_setup package ip port stream debug srv st :
  setup_worker_logging package srv (setup package ip port stream debug st).2
  = (setup package ip port stream debug st).2.
Proof.
  unfold setup_worker_logging, setup. cbn [snd].
  apply worker_loop_noop. repeat constructor.
  - destruct (decide (package = "distributed")) as [->|Hne];
      [apply config_configured|].
    destruct (config_configured
                (IO (match stream with Some io => io | None => "sys.stdout" end))
                (if debug then 10 else 20)%Z "distributed" st)
      as (lg & Hlg & Hh).
    exists lg. split; [|done]. by rewrite config_other.
  - apply config_configured.
Qed.


Lemma addHandler_new ref p hs l :
  ref ∉ hs → addHandler ref (Logger p hs l) = Logger p (hs ++ [ref]) l.
Proof. intros Hnot. unfold addHandler. cbn. by rewrite decide_False. Qed.

Lemma worker_loop_keeps_handler names srv st ref h :
  handler_objects st !! ref = Some h →
  handler_objects (worker_loop names srv st) !! ref = Some h.
Proof.
  revert st. induction names as [|n rest IH]; intros st Href; [done|].
  rewrite worker_loop_cons. apply IH.
  destruct (handlers_of n st); [|by rewrite getLogger_handler_objects].
  cbv zeta. rewrite config_handler. cbn [handler_objects].
  rewrite getLogger_handler_objects.
  assert (Hne : fresh (dom (handler_objects st)) ≠ ref).
  { intros Heq. apply (is_fresh (dom (handler_objects st))).
    rewrite Heq. apply elem_of_dom. by eexists. }
  rewrite lookup_alter_ne, lookup_insert_ne by done. done.
Qed.

Lemma worker_step_other n srv st name :
  n ≠ name →
  loggers
    (match handlers_of n st with
     | _ :: _ => (getLogger n st).2
     | [] =>
         let st1 := (getLogger n st).2 in
         let ref := fresh (dom (handler_objects st1)) in
         _config_logger (IsHandler ref) srv.2 n
           (Logging (loggers st1)
              (<[ref:=Handler (SocketHandler srv.1.1 srv.1.2) None]>
                 (handler_objects st1)))
     end) !! name
  = loggers st !! name.
Proof.
  intros Hne. destruct (handlers_of n st).
  - cbv zeta. rewrite config_other by done. cbn [loggers].
    rewrite getLogger_loggers. by rewrite lookup_insert_ne.
  - rewrite getLogger_loggers. by rewrite lookup_insert_ne.
Qed.

Lemma worker_loop_bare names srv st name :
  name ∈ names → handlers_of name st = [] →
  ∃ ref,
    loggers (worker_loop names srv st) !! name
    = Some (Logger true [ref]
              (if decide (srv.2 = 0%Z) then level_of name st else srv.2)) ∧
    handler_objects (worker_loop names srv st) !! ref
    = Some (Handler (SocketHandler srv.1.1 srv.1.2) (Some tornado_formatter)).
Proof.
  revert st. induction names as [|n rest IH]; intros st Hin Hbare;
    [by apply elem_of_nil in Hin|].
  rewrite worker_loop_cons.
  destruct (decide (n = name)) as [->|Hne].
  - rewrite Hbare. cbv zeta.
    set (st1 := (getLogger name st).2).
    set (ref := fresh (dom (handler_objects st1))).
    exists ref. rewrite config_handler.
    assert (Hh : handlers_of name
                   (Logging (loggers st1)
                      (<[ref:=Handler (SocketHandler srv.1.1 srv.1.2) None]>
                         (handler_objects st1))) = []).
    { unfold handlers_of, st1. cbn [loggers]. rewrite getLogger_loggers.
      rewrite lookup_insert_eq. cbn. by rewrite getLogger_handlers. }
    assert (Hv : level_of name
                   (Logging (loggers st1)
                      (<[ref:=Handler (SocketHandler srv.1.1 srv.1.2) None]>
                         (handler_objects st1))) = level_of name st).
    { unfold level_of at 1, st1. cbn [loggers]. rewrite getLogger_loggers.
      rewrite lookup_insert_eq. cbn. by rewrite getLogger_level. }
    rewrite Hh, Hv. cbv zeta.
    rewrite addHandler_new by apply not_elem_of_nil. cbn [app]. split.
    + apply worker_loop_keeps.
      * cbn [loggers]. rewrite lookup_insert_eq. by case_decide.
      * by case_decide.
    + apply worker_loop_keeps_handler. cbn [handler_objects].
      by rewrite lookup_alter_eq, lookup_insert_eq.
  - apply elem_of_cons in Hin as [?|Hin]; [done|].
    match goal with
    | |- context [worker_loop rest srv ?s] =>
        destruct (IH s Hin) as (ref & Hlg & Hho)
    end.
    { unfold handlers_of at 1. by rewrite worker_step_other. }
    exists ref. split; [|done].
    rewrite Hlg. unfold level_of at 1. by rewrite worker_step_other.
Qed.

(** X12. A logger among the two that has no handler yet, or that does
    not exist yet, gets one socket handler to the log server, with the
    formatter; it propagates; its level is the level received when that
    is not zero and is left as it was otherwise. *)
Theorem worker_logging_configures_bare_logger package srv st name :
  name ∈ ["distributed"; package] →
  handlers_of name st = [] →
  let st' := setup_worker_logging package srv st in
  ∃ ref,
    loggers st' !! name
    = Some (Logger true [ref]
              (if decide (srv.2 = 0%Z) then level_of name st else srv.2)) ∧
    handler_objects st' !! ref
    = Some (Handler (SocketHandler srv.1.1 srv.1.2) (Some tornado_formatter)).
Proof. apply worker_loop_bare. Qed.

Lemma config_stream_adds io level name st :
  handlers_exist st → level ≠ 0%Z →
  let st1 := _config_logger (IO io) level name st in
  let ref := fresh (dom (handler_objects st)) in
  handlers_of name st1 = handlers_of name st ++ [ref] ∧
  level_of name st1 = level ∧
  handler_objects st1
  = <[ref:=Handler (StreamHandler io) (Some tornado_formatter)]>
      (handler_objects st) ∧
  handlers_exist st1.
Proof.
  intros Hwf Hlevel st1 ref.
  assert (Hfresh : ref ∉ dom (handler_objects st)) by apply is_fresh.
  assert (Hnot : ref ∉ handlers_of name st).
  { intros Hin. apply Hfresh. unfold handlers_of in Hin.
    destruct (loggers st !! name) as [lg|] eqn:Hlg;
      [|by apply elem_of_nil in Hin].
    by eapply Hwf. }
  unfold st1. rewrite config_stream. cbv zeta. fold ref.
  rewrite addHandler_new, decide_False by done. cbn [handlers propagate].
  unfold handlers_of at 1, level_of at 1. cbn [loggers handler_objects].
  rewrite lookup_insert_eq. cbn.
  split; [done|]. split; [done|]. split; [done|].
  intros n lg r Hlg Hr. cbn [loggers handler_objects] in *.
  rewrite dom_insert_L.
  destruct (decide (name = n)) as [->|Hne].
  - rewrite lookup_insert_eq in Hlg. injection Hlg as <-. cbn in Hr.
    apply elem_of_app in Hr as [Hr|Hr]; [|set_solver].
    apply elem_of_union_r. unfold handlers_of in Hr.
    destruct (loggers st !! n) as [lg|] eqn:Hlg;
      [|by apply elem_of_nil in Hr].
    by eapply Hwf.
  - rewrite lookup_insert_ne in Hlg by done.
    apply elem_of_union_r. by eapply Hwf.
Qed.


End LoggerFacts.

(** * The product specification *)

Section DurationFacts.

Import ProductSpec.

Lemma int64_id (z : Z) :
  (-9223372036854775808 ≤ z < 9223372036854775808)%Z → int64 z = z.
Proof. intros Hz. unfold int64. rewrite Z.mod_small; lia. Qed.

(** X14. For a duration that numpy can hold in seconds, short of the
    lowest hour of the range, the fields that [_iso_duration] prints make
    up the duration: the hours are its quotient by 3600 rounded down, and
    the minutes and the seconds are between 0 and 59, also when the
    duration is negative. *)
Theorem iso_duration_fields (seconds : Z) :
  (-9223372036854775808 + 3600 ≤ seconds < 9223372036854775808)%Z →
  let '(hours, minutes, secs) := duration_fields seconds in
  (seconds = 3600 * hours + 60 * minutes + secs ∧
   0 ≤ minutes < 60 ∧ 0 ≤ secs < 60)%Z.
Proof.
  intros Hs. unfold duration_fields.
  set (hours := (seconds `div` 3600)%Z).
  assert (Hh : (3600 * hours ≤ seconds < 3600 * hours + 3600)%Z).
  { unfold hours. pose proof (Z.mul_div_le seconds 3600).
    pose proof (Z.mul_succ_div_gt seconds 3600). lia. }
  rewrite (int64_id (hours * 3600)) by lia.
  rewrite (int64_id (seconds - hours * 3600)) by lia.
  set (rest := (seconds - hours * 3600)%Z).
  set (minutes := (rest `div` 60)%Z).
  assert (Hm : (60 * minutes ≤ rest < 60 * minutes + 60)%Z).
  { unfold minutes. pose proof (Z.mul_div_le rest 60).
    pose proof (Z.mul_succ_div_gt rest 60). lia. }
  rewrite (int64_id (minutes * 60)) by lia.
  rewrite (int64_id (rest - minutes * 60)) by lia.
  unfold rest in *. lia.
Qed.

End DurationFacts.

Section CreateVariableFacts.

Import ProductSpec.

Context {number : Type}.

Implicit Types (keywords kwargs : gmap string (value number)).
Implicit Types (encoding : gmap string (gmap string (value number))).
Implicit Types (variable_dtype : value number).

(** X15. Whatever the encoding holds for the variable, the keywords
    that [_create_variable_args] returns are the nine keywords of the
    table, each with a value, and no other: a key of the encoding that
    is not among them is not handed on. *)
Theorem create_variable_keywords encoding name variable_dtype :
  dom (_create_variable_args encoding name variable_dtype).1.2
  = list_to_set (create_variable_defaults (number:=number)).*1.
Proof.
  unfold _create_variable_args. cbv zeta.
  destruct (default ∅ (encoding !! name) !! "_FillValue");
    cbn [pop_default pop_all create_variable_defaults fst snd];
    rewrite !dom_insert_L, dom_empty_L; cbn; set_solver.
Qed.

(** X16. A [_FillValue] in the encoding of the variable is the fill
    value handed on, also when the encoding has a [fill_value] of its
    own. *)
Theorem create_variable_fill_value encoding name variable_dtype keywords v :
  encoding !! name = Some keywords →
  keywords !! "_FillValue" = Some v →
  (_create_variable_args encoding name variable_dtype).1.2 !! "fill_value"
  = Some v.
Proof.
  intros Hname Hfill. unfold _create_variable_args. cbv zeta.
  rewrite Hname. cbn [default from_option id]. rewrite Hfill.
  cbn [pop_default pop_all create_variable_defaults fst snd].
  rewrite lookup_insert_eq.
  by rewrite !lookup_delete_ne, lookup_insert_eq by done.
Qed.

Lemma pop_default_absent key (fallback : value number) keywords :
  keywords !! key = None →
  pop_default key fallback keywords = (fallback, keywords).
Proof.
  intros Hkey. unfold pop_default. rewrite Hkey. by rewrite delete_id.
Qed.

Lemma pop_all_absent (items : list (string * value number)) keywords kwargs :
  Forall (λ item, keywords !! item.1 = None) items →
  pop_all items keywords kwargs
  = (foldl (λ kw item, <[item.1:=item.2]> kw) kwargs items, keywords).
Proof.
  intros Hall. revert kwargs.
  induction Hall as [|[key v] rest Hkey _ IH]; intros kwargs; [done|].
  cbn [pop_all]. rewrite pop_default_absent by done. apply IH.
Qed.

Lemma create_variable_args_absent encoding name variable_dtype keywords :
  encoding !! name = Some keywords →
  (∀ k, k ∈ "_FillValue" :: "dtype"
            :: (create_variable_defaults (number:=number)).*1 →
        keywords !! k = None) →
  _create_variable_args encoding name variable_dtype
  = ((variable_dtype, list_to_map create_variable_defaults), encoding).
Proof.
  intros Hname Hnone. unfold _create_variable_args. cbv zeta.
  rewrite Hname. cbn [default from_option id].
  rewrite (Hnone "_FillValue") by set_solver.
  rewrite pop_default_absent by (apply Hnone; set_solver).
  rewrite pop_all_absent.
  - rewrite insert_id by done. reflexivity.
  - apply Forall_forall. intros [k v] Hk. apply Hnone.
    do 2 (apply elem_of_cons; right). apply list_elem_of_fmap.
    by exists (k, v).
Qed.

(** X17. [_create_variable_args] uses up the encoding of the variable:
    it removes from the dictionary it was given what it read, so that a
    second call for the same variable finds nothing and returns the type
    of the variable and the values of the table, whatever the first call
    had found. *)
Theorem create_variable_args_consumes encoding name variable_dtype
    variable_dtype' :
  let first := _create_variable_args encoding name variable_dtype in
  _create_variable_args first.2 name variable_dtype'
  = ((variable_dtype', list_to_map create_variable_defaults), first.2).
Proof.
  intros first.
  destruct (encoding !! name) as [keywords|] eqn:Hname.
  - set (left_ := (pop_all create_variable_defaults
                     (pop_default "dtype" variable_dtype
                        match keywords !! "_FillValue" with
                        | Some v =>
                            <["fill_value":=v]> (delete "_FillValue" keywords)
                        | None => keywords
                        end).2 ∅).2).
    assert (Hfirst : first.2 = <[name:=left_]> encoding).
    { unfold first, _create_variable_args. cbv zeta. rewrite Hname.
      cbn [default from_option id]. unfold left_.
      destruct (pop_default _ _ _) as [dt kw0]. cbn [snd].
      by destruct (pop_all _ _ _). }
    rewrite Hfirst.
    apply create_variable_args_absent with left_; [apply lookup_insert_eq|].
    intros k Hk. unfold left_.
    destruct (keywords !! "_FillValue") eqn:Hfill;
      cbn [pop_default pop_all create_variable_defaults fst snd];
      cbn in Hk;
      repeat (apply elem_of_cons in Hk as [->|Hk]; [by simplify_map_eq|]);
      by apply elem_of_nil in Hk.
  - assert (Hfirst : first.2 = encoding).
    { unfold first, _create_variable_args. cbv zeta. rewrite Hname.
      cbn [default from_option id]. rewrite lookup_empty.
      destruct (pop_default _ _ _) as [dt kw0].
      by destruct (pop_all _ _ _). }
    rewrite Hfirst. unfold _create_variable_args. cbv zeta. rewrite Hname.
    cbn [default from_option id]. rewrite lookup_empty.
    rewrite pop_default_absent by apply lookup_empty.
    rewrite pop_all_absent by (apply Forall_forall; intros; apply lookup_empty).
    reflexivity.
Qed.

End CreateVariableFacts.

Section ParserFacts.

Import ProductSpec.

Context {number : Type}.

Variable repr : string → string.
Variable np_has : string → bool.
Variable np_name : string → string.
Variable np_dtype_ok : string → bool.

Implicit Types (item root : element) (shapes : gmap string (list string)).
Implicit Types (variables : list (string * properties number)).

Lemma dict_get_set {A} (d : list (string * A)) (key key' : string) (a : A) :
  dict_get (dict_set key a d) key'
  = if decide (key = key') then Some a else dict_get d key'.
Proof.
  induction d as [|[k b] d IH]; cbn.
  - by destruct (decide (key = key')).
  - destruct (decide (k = key)) as [->|Hk]; cbn.
    + by destruct (decide (key = key')).
    + rewrite IH. destruct (decide (k = key')) as [->|?]; [|done].
      by rewrite decide_False by done.
Qed.

(** X18. A node of type [integer] that has no [signed] attribute is
    unsigned: the type that [_parser] looks up in numpy for it is
    [uint] followed by its width, as for a node whose attribute reads
    false. *)
Theorem integer_without_signed_is_unsigned item width :
  tag item = "integer" →
  attrib item !! "width" = Some width →
  attrib item !! "signed" = None →
  node_dtype (number:=number) repr np_has np_name np_dtype_ok item
  = if np_has ("uint" +:+ width)
    then inr (Str (np_name ("uint" +:+ width)))
    else inl (AttributeError ("uint" +:+ width)).
Proof.
  intros Htag Hwidth Hsigned.
  unfold node_dtype, subscript, _parse_type, np_getattr.
  rewrite Hwidth, Hsigned, Htag. cbn.
  rewrite decide_False, decide_True by done.
  change ("u" +:+ "int" +:+ width) with ("uint" +:+ width).
  by destruct (np_has _).
Qed.

(** The shapes that the first loop registers have a dimension. *)
Lemma read_shapes_nonempty (items : list element) shapes shapes' :
  (∀ k dims, shapes !! k = Some dims → dims ≠ []) →
  read_shapes items shapes = inr shapes' →
  ∀ k dims, shapes' !! k = Some dims → dims ≠ [].
Proof.
  revert shapes. induction items as [|item rest IH]; intros shapes Hinv Hrun.
  - by injection Hrun as <-.
  - cbn in Hrun.
    destruct (dimension_names (findall "dimension" item)) as [e|dims]; [done|].
    cbn in Hrun. destruct dims as [|d dims]; [by eapply IH|].
    destruct (subscript (attrib item) "name") as [e|name]; [done|].
    cbn in Hrun. eapply IH; [|done].
    intros k ds Hk. destruct (decide (name = k)) as [->|Hne].
    + rewrite lookup_insert_eq in Hk. by injection Hk as <-.
    + rewrite lookup_insert_ne in Hk by done. by eapply Hinv.
Qed.

Lemma parse_node_entries shapes item acc acc' :
  (∀ k dims, shapes !! k = Some dims → dims ≠ []) →
  (∀ k p, dict_get acc.1 k = Some p → variable_entry (number:=number) p) →
  (∀ k p, dict_get acc.2 k = Some p → attribute_entry p) →
  parse_node repr np_has np_name np_dtype_ok shapes item acc = inr acc' →
  (∀ k p, dict_get acc'.1 k = Some p → variable_entry (number:=number) p) ∧
  (∀ k p, dict_get acc'.2 k = Some p → attribute_entry p).
Proof.
  intros Hshapes Hvars Hattrs Hrun. destruct acc as [variables attributes].
  unfold parse_node in Hrun.
  destruct (node_dtype _ _ _ _ item) as [e|dtype]; [done|]. cbn in Hrun.
  destruct (find "annotation" item) as [annotation|];
    [|by injection Hrun as <-].
  destruct (subscript (attrib item) "name") as [e|varname]; [done|].
  cbn in Hrun. destruct (String.prefix "/@" varname).
  - injection Hrun as <-. split; [done|]. cbn [fst snd].
    intros k p. rewrite dict_get_set. case_decide; [|by apply Hattrs].
    by intros [= <-].
  - destruct (subscript (attrib annotation) "app") as [e|app]; [done|].
    cbn in Hrun.
    destruct (subscript (attrib item) "shape") as [e|shape_name]; [done|].
    cbn in Hrun. unfold subscript in Hrun.
    destruct (shapes !! shape_name) as [dims|] eqn:Hdims; [|done].
    cbn in Hrun. injection Hrun as <-. split; [|done]. cbn [fst snd].
    intros k p. rewrite dict_get_set. case_decide; [|by apply Hvars].
    intros [= <-]. split; cbn.
    + destruct dims as [|d dims]; [by apply Hshapes in Hdims|by eexists _, _].
    + by rewrite lookup_fmap, lookup_delete_eq.
Qed.

Lemma parse_nodes_entries shapes (items : list element) acc acc' :
  (∀ k dims, shapes !! k = Some dims → dims ≠ []) →
  (∀ k p, dict_get acc.1 k = Some p → variable_entry (number:=number) p) →
  (∀ k p, dict_get acc.2 k = Some p → attribute_entry p) →
  parse_nodes repr np_has np_name np_dtype_ok shapes items acc = inr acc' →
  (∀ k p, dict_get acc'.1 k = Some p → variable_entry (number:=number) p) ∧
  (∀ k p, dict_get acc'.2 k = Some p → attribute_entry p).
Proof.
  intros Hshapes. revert acc.
  induction items as [|item rest IH]; intros acc Hvars Hattrs Hrun.
  - by injection Hrun as <-.
  - cbn in Hrun.
    destruct (parse_node _ _ _ _ shapes item acc) as [e|acc1] eqn:Hnode;
      [done|].
    cbn in Hrun.
    destruct (parse_node_entries _ _ _ _ Hshapes Hvars Hattrs Hnode).
    by eapply IH.
Qed.

(** X19. Every variable that [_parser] returns has a shape with at least
    one dimension, and no [app] attribute; no attribute it returns has a
    shape.  A shape to which the document gives no dimension is not
    registered, so that no variable returned refers to one. *)
Theorem parser_entries root variables attributes :
  _parser repr np_has np_name np_dtype_ok root = inr (variables, attributes) →
  (∀ k p, dict_get variables k = Some p →
          (∃ d dims, shape p = Some (d :: dims)) ∧ attrs p !! "app" = None) ∧
  (∀ k p, dict_get attributes k = Some p → shape p = None).
Proof.
  intros Hrun. unfold _parser in Hrun.
  destruct (read_shapes (findall "shape" root) ∅) as [e|shapes] eqn:Hshapes;
    [done|].
  cbn in Hrun. destruct (_find root "science") as [e|science]; [done|].
  cbn in Hrun. destruct (_find science "nodes") as [e|nodes]; [done|].
  cbn in Hrun.
  eapply (parse_nodes_entries shapes (children nodes) ([], [])
            (variables, attributes)); try done.
  eapply read_shapes_nonempty; [|done]. intros k dims Hk.
  by rewrite lookup_empty in Hk.
Qed.

Lemma parse_nodes_app shapes (pre rest : list element) acc :
  parse_nodes repr np_has np_name np_dtype_ok shapes (pre ++ rest) acc
  = (acc' ← parse_nodes (number:=number) repr np_has np_name np_dtype_ok
              shapes pre acc;
     parse_nodes repr np_has np_name np_dtype_ok shapes rest acc').
Proof.
  revert acc. induction pre as [|item pre IH]; intros acc; [done|].
  cbn. destruct (parse_node _ _ _ _ shapes item acc); [done|]. apply IH.
Qed.

(** X20. The type of a node is checked before its annotation is looked
    for: a node whose tag is not one of the four types makes [_parser]
    raise [ValueError], whether or not the node is annotated, once the
    nodes before it are read. *)
Theorem parser_checks_every_node root science nodes shapes
    (pre rest : list element) item acc width :
  read_shapes (findall "shape" root) ∅ = inr shapes →
  find "science" root = Some science →
  find "nodes" science = Some nodes →
  children nodes = pre ++ item :: rest →
  parse_nodes (number:=number) repr np_has np_name np_dtype_ok shapes pre
              ([], []) = inr acc →
  attrib item !! "width" = Some width →
  attrib item !! "signed" = None →
  tag item ∉ ["real"; "integer"; "string"; "char"] →
  _parser (number:=number) repr np_has np_name np_dtype_ok root
  = inl (ValueError ("Data type '" +:+ tag item +:+ "' is not recognized.")).
Proof.
  intros Hshapes Hscience Hnodes Hchildren Hpre Hwidth Hsigned Htag.
  unfold _parser, _find. rewrite Hshapes, Hscience. cbn.
  rewrite Hnodes. cbn. rewrite Hchildren, parse_nodes_app, Hpre. cbn.
  unfold parse_node. destruct acc as [variables attributes].
  unfold node_dtype, subscript, _parse_type. rewrite Hwidth, Hsigned. cbn.
  rewrite !decide_False; [done|..]; intros Heq; apply Htag; rewrite Heq;
    set_solver.
Qed.

End ParserFacts.

Section SpecificationFacts.

Import ProductSpec.

Context {number array : Type}.

Variable repr : string → string.
Variable np_has : string → bool.
Variable np_name : string → string.
Variable np_dtype_ok : string → bool.
Variable np_call : string → value number → error + number.
Variable np_array : value number → value number → error + number.
Variable float : value number → error + number.
Variable normalize_longitude : array → array.
Variable np_full : list nat → number → value number → array.
Variable array_size : array → nat.
Variable array_shape : array → list nat.
Variable write :
  product number array → Z → Z → string →
  DataArray number array → DataArray number array → error + unit.
Variable np_full_rows : nat → array → array.

Implicit Types (self : spec number) (attrs : gmap string (value number)).

(** X21. [time] can be called once on a specification: a call that
    returns has removed the fill value from the attributes that the
    specification keeps for the time, so that the next call on the same
    specification raises [KeyError], whatever array it is given. *)
Theorem time_only_once self (time1 time2 : array) made self' :
  ProductSpecification_time self time1 = inr (made, self') →
  ProductSpecification_time self' time2 = inl (KeyError "_FillValue").
Proof.
  unfold ProductSpecification_time, dict_subscript. intros Hrun.
  destruct (dict_get (variables self) "basic/time") as [p|]; [|done].
  cbn [mbind error_bind] in Hrun.
  destruct (subscript (attrs p) "_FillValue") as [e|fv]; [done|].
  cbn [mbind error_bind] in Hrun.
  destruct (shape_of p) as [e|dims]; [done|].
  cbn [mbind error_bind] in Hrun. injection Hrun as _ <-.
  cbn [variables]. rewrite dict_get_set, decide_True by done.
  cbn [mbind error_bind]. unfold subscript. cbn [attrs].
  by rewrite lookup_delete_eq.
Qed.

Lemma convert_lookup_None (cast : value number → error + number)
    (items : list string) attrs attrs' k :
  convert cast items attrs = inr attrs' →
  attrs' !! k = None ↔ attrs !! k = None.
Proof.
  revert attrs. induction items as [|item rest IH]; intros attrs Hrun.
  - by injection Hrun as <-.
  - cbn in Hrun. destruct (attrs !! item) as [v|] eqn:Hitem; [|by apply IH].
    destruct (cast v) as [e|x]; [done|]. cbn in Hrun.
    rewrite (IH _ Hrun). destruct (decide (item = k)) as [->|Hne].
    + rewrite lookup_insert_eq, Hitem. done.
    + by rewrite lookup_insert_ne.
Qed.

Lemma pairing attrs (zero one : value number) :
  let a1 := if decide (is_Some (attrs !! "scale_factor") ∧
                       attrs !! "add_offset" = None)
            then <["add_offset":=zero]> attrs else attrs in
  let a2 := if decide (is_Some (a1 !! "add_offset") ∧
                       a1 !! "scale_factor" = None)
            then <["scale_factor":=one]> a1 else a1 in
  (is_Some (a2 !! "add_offset") ↔ is_Some (a2 !! "scale_factor")) ∧
  ∀ k, k ≠ "add_offset" → k ≠ "scale_factor" → a2 !! k = attrs !! k.
Proof.
  intros a1 a2. unfold a2, a1. split.
  - repeat case_decide; simplify_map_eq; rewrite ?is_Some_alt in *;
      repeat case_match; naive_solver.
  - intros k ? ?. repeat case_decide; by simplify_map_eq.
Qed.

Lemma spec_data_array_name self name (data : array) made :
  ProductSpecification__data_array np_has np_call np_array float self name
    data = inr made →
  ProductSpec.name made.2 = name ∧ ProductSpec.data made.2 = data.
Proof.
  unfold ProductSpecification__data_array. intros Hrun.
  destruct (dict_subscript (variables self) name) as [e|p]; [done|].
  cbn [mbind error_bind] in Hrun.
  destruct (fill_value _ _ _ p) as [e|fill]; [done|].
  cbn [mbind error_bind] in Hrun.
  destruct (subscript (attrs p) "_FillValue") as [e|fv]; [done|].
  cbn [mbind error_bind] in Hrun.
  destruct (convert float ["add_offset"; "scale_factor"] _) as [e|attrs1];
    [done|].
  cbn [mbind error_bind] in Hrun.
  destruct (convert _ ["valid_min"; "valid_max"] attrs1) as [e|attrs2];
    [done|].
  cbn [mbind error_bind] in Hrun. destruct (shape_of p) as [e|dims]; [done|].
  cbn [mbind error_bind] in Hrun. by injection Hrun as <-.
Qed.

(** X22. In the array that [_data_array] returns, the attributes have no
    fill value, which goes to the encoding with the type, and they have a
    scale factor exactly when they have an offset: the one that the
    specification does not give is added.  The array bears the name
    asked for. *)
Theorem data_array_attributes self name (data : array) made_encoding array_ :
  ProductSpecification__data_array np_has np_call np_array float self name data
  = inr (made_encoding, array_) →
  ProductSpec.name array_ = name ∧
  ProductSpec.data array_ = data ∧
  da_attrs array_ !! "_FillValue" = None ∧
  (is_Some (da_attrs array_ !! "add_offset")
   ↔ is_Some (da_attrs array_ !! "scale_factor")) ∧
  dom made_encoding = {[ "_FillValue"; "dtype" ]}.
Proof.
  unfold ProductSpecification__data_array. intros Hrun.
  destruct (dict_subscript (variables self) name) as [e|p]; [done|].
  cbn [mbind error_bind] in Hrun. destruct (fill_value _ _ _ p) as [e|fill]; [done|].
  cbn [mbind error_bind] in Hrun. destruct (subscript (attrs p) "_FillValue") as [e|fv]; [done|].
  cbn [mbind error_bind] in Hrun.
  destruct (convert float ["add_offset"; "scale_factor"] _)
    as [e|attrs1] eqn:H1; [done|].
  cbn [mbind error_bind] in Hrun.
  destruct (convert _ ["valid_min"; "valid_max"] attrs1)
    as [e|attrs2] eqn:H2; [done|].
  cbn [mbind error_bind] in Hrun. destruct (shape_of p) as [e|dims]; [done|].
  cbn [mbind error_bind] in Hrun. injection Hrun as <- <-. cbn [ProductSpec.name ProductSpec.data da_attrs].
  assert (Hfill : attrs2 !! "_FillValue" = None).
  { rewrite (convert_lookup_None _ _ _ _ _ H2).
    rewrite (convert_lookup_None _ _ _ _ _ H1). apply lookup_delete_eq. }
  split; [done|]. split; [done|]. split.
  { rewrite (proj2 (pairing attrs2 _ _)) by done. done. }
  split; [|rewrite dom_insert_L, dom_singleton_L; set_solver].
  apply pairing.
Qed.

End SpecificationFacts.

Section ProductFacts.

Import ProductSpec.

Context {number array : Type}.

Variable repr : string → string.
Variable np_has : string → bool.
Variable np_name : string → string.
Variable np_dtype_ok : string → bool.
Variable np_call : string → value number → error + number.
Variable np_array : value number → value number → error + number.
Variable float : value number → error + number.
Variable normalize_longitude : array → array.
Variable np_full : list nat → number → value number → array.
Variable array_size : array → nat.
Variable array_shape : array → list nat.
Variable write :
  product number array → Z → Z → string →
  DataArray number array → DataArray number array → error + unit.
Variable np_full_rows : nat → array → array.

Implicit Types (self : product number array).
Implicit Types (arrays : list (DataArray number array)).

Lemma by_name_snoc arrays (a : DataArray number array) :
  by_name (arrays ++ [a]) = <[name a:=a]> (by_name arrays).
Proof. unfold by_name. by rewrite foldl_app. Qed.

Lemma by_name_absent arrays k :
  Forall (λ a, name a ≠ k) arrays → by_name arrays !! k = None.
Proof.
  induction arrays as [|a arrays IH] using rev_ind; intros Hall;
    [apply lookup_empty|].
  apply Forall_app in Hall as [Hall Ha]. rewrite Forall_singleton in Ha.
  rewrite by_name_snoc, lookup_insert_ne; [by apply IH|done].
Qed.

Lemma call_spec_name (spec_ : spec number) attr (data : array) made :
  call_spec np_has np_call np_array float normalize_longitude spec_ attr data
  = inr made →
  name made.2 = method_variable attr.
Proof.
  unfold call_spec, method_variable, x_ac, lon, lon_nadir, lat, lat_nadir,
    ssh_karin.
  repeat case_decide; try done;
    try (intros Hrun; by apply spec_data_array_name in Hrun as [? ?]).
  unfold ssh_nadir. intros Hrun.
  destruct (dict_subscript _ _) as [e|p]; [done|]. cbn in Hrun.
  destruct (shape_of p) as [e|dims]; [done|]. cbn in Hrun.
  by injection Hrun as <-.
Qed.

Lemma Nadir__data_array_adds self attr (data : array) self' :
  Nadir__data_array np_has np_call np_array float normalize_longitude
    self attr data = inr self' →
  standalone self' = standalone self ∧
  ∃ a, data_vars self' = data_vars self ++ [a] ∧
       name a = if standalone self
                then replace "_nadir" "" (method_variable attr)
                else method_variable attr.
Proof.
  unfold Nadir__data_array. intros Hrun.
  destruct (call_spec _ _ _ _ _ _ attr data) as [e|[enc arr]] eqn:Hcall;
    [done|].
  apply call_spec_name in Hcall. cbn in Hcall, Hrun.
  injection Hrun as <-. cbn. split; [done|].
  eexists. split; [done|]. destruct (standalone self); cbn; by rewrite Hcall.
Qed.

Lemma Nadir_standalone_names root (track : Pass array) self :
  Nadir repr np_has np_name np_dtype_ok np_call np_array float
    normalize_longitude array_size root track true = inr self →
  standalone self = true ∧
  Forall (λ a, name a ∈ standalone_names) (data_vars self).
Proof.
  unfold Nadir. intros Hrun.
  destruct (ProductSpecification _ _ _ _ root) as [e|spec0]; [done|].
  cbn [mbind error_bind] in Hrun.
  destruct (ProductSpecification_time spec0 (track_time track))
    as [e|[[enc vars] spec1]] eqn:Htime; [done|].
  cbn [mbind error_bind] in Hrun.
  assert (Hvars : Forall (λ a, name a ∈ standalone_names) vars).
  { unfold ProductSpecification_time in Htime.
    destruct (dict_subscript _ _) as [e|p]; [done|]. cbn in Htime.
    destruct (subscript _ _) as [e|fv]; [done|]. cbn in Htime.
    destruct (shape_of p) as [e|dims]; [done|]. cbn in Htime.
    injection Htime as <- <- <-. repeat constructor. }
  destruct (Nadir__data_array _ _ _ _ _ _ "lon_nadir" _) as [e|self1] eqn:H1;
    [done|].
  cbn [mbind error_bind] in Hrun.
  apply Nadir__data_array_adds in H1 as (Hs1 & a1 & Hd1 & Hn1).
  apply Nadir__data_array_adds in Hrun as (Hs & a2 & Hd & Hn).
  cbn in Hs1, Hd1, Hn1. rewrite Hs1 in Hs, Hn. split; [done|].
  rewrite Hd, Hd1. repeat (apply Forall_app; split); [done|..];
    apply Forall_singleton; [rewrite Hn1|rewrite Hn];
    vm_compute; repeat constructor.
Qed.

Lemma Nadir_ssh_all_names self (data : list array) self' :
  standalone self = true →
  Forall (λ a, name a ∈ standalone_names) (data_vars self) →
  Nadir_ssh_all np_has np_call np_array float normalize_longitude self data
  = inr self' →
  Forall (λ a, name a ∈ standalone_names) (data_vars self').
Proof.
  revert self. induction data as [|d rest IH]; intros self Hs Hall Hrun.
  - by injection Hrun as <-.
  - cbn in Hrun. unfold Nadir_ssh in Hrun.
    destruct (Nadir__data_array _ _ _ _ _ self "ssh_nadir" d)
      as [e|self1] eqn:H1; [done|].
    cbn [mbind error_bind] in Hrun.
    apply Nadir__data_array_adds in H1 as (Hs1 & a & Hd & Hn).
    rewrite Hs in Hs1, Hn. apply (IH self1); [done| |done].
    rewrite Hd. apply Forall_app. split; [done|].
    apply Forall_singleton. rewrite Hn. vm_compute. repeat constructor.
Qed.

(** X23. A [Nadir] product made standalone cannot be written: its
    arrays are renamed without [_nadir], so that [to_netcdf], which finds
    no longitude of the swath, looks for the longitude of the nadir under
    its full name and raises [KeyError], before anything is written and
    whatever was given to [ssh]. *)
Theorem standalone_nadir_is_not_written root (track : Pass array)
    (data : list array) self0 self cycle_number pass_number path
    complete_product :
  Nadir repr np_has np_name np_dtype_ok np_call np_array float
    normalize_longitude array_size root track true = inr self0 →
  Nadir_ssh_all np_has np_call np_array float normalize_longitude self0 data
  = inr self →
  Nadir_to_netcdf np_has np_call np_array float np_full array_shape write
    self cycle_number pass_number path complete_product
  = inl (KeyError "expert/longitude_nadir").
Proof.
  intros Hinit Hssh.
  apply Nadir_standalone_names in Hinit as [Hs Hnames].
  pose proof (Nadir_ssh_all_names _ _ _ Hs Hnames Hssh) as Hall.
  assert (Habsent : ∀ k, k ∉ standalone_names →
                         by_name (data_vars self) !! k = None).
  { intros k Hk. apply by_name_absent.
    eapply Forall_impl; [exact Hall|]. intros a Ha Heq. apply Hk.
    by rewrite <- Heq. }
  unfold Nadir_to_netcdf. cbv zeta.
  rewrite (Habsent "basic/longitude")
    by (vm_compute; intros H; repeat (inversion H as [|? ? ? H']; subst;
                                       clear H; rename H' into H)).
  rewrite bool_decide_false by (by intros [? ?]).
  rewrite andb_false_r. cbn [mbind error_bind].
  unfold subscript.
  by rewrite (Habsent "expert/longitude_nadir")
    by (vm_compute; intros H; repeat (inversion H as [|? ? ? H']; subst;
                                       clear H; rename H' into H)).
Qed.


Lemma call_spec_data (spec_ : spec number) attr (data : array) made :
  call_spec np_has np_call np_array float normalize_longitude spec_ attr data
  = inr made →
  ProductSpec.data made.2
  = if decide (attr = "lon" ∨ attr = "lon_nadir")
    then normalize_longitude data else data.
Proof.
  unfold call_spec, x_ac, lon, lon_nadir, lat, lat_nadir, ssh_karin.
  destruct (decide (attr = "x_ac")) as [->|?];
    [rewrite decide_False by (by intros [?|?]);
     intros Hrun; by apply spec_data_array_name in Hrun as [? ?]|].
  destruct (decide (attr = "lon")) as [->|?];
    [rewrite decide_True by (by left);
     intros Hrun; by apply spec_data_array_name in Hrun as [? ?]|].
  destruct (decide (attr = "lon_nadir")) as [->|?];
    [rewrite decide_True by (by right);
     intros Hrun; by apply spec_data_array_name in Hrun as [? ?]|].
  rewrite (decide_False (P:=attr = "lon" ∨ attr = "lon_nadir"))
    by (by intros [?|?]).
  repeat case_decide; try done;
    try (intros Hrun; by apply spec_data_array_name in Hrun as [? ?]).
  unfold ssh_nadir. intros Hrun.
  destruct (dict_subscript _ _) as [e|p]; [done|]. cbn in Hrun.
  destruct (shape_of p) as [e|dims]; [done|]. cbn in Hrun.
  by injection Hrun as <-.
Qed.

Lemma Nadir__data_array_plain self attr (data : array) self' :
  standalone self = false →
  Nadir__data_array np_has np_call np_array float normalize_longitude
    self attr data = inr self' →
  standalone self' = false ∧
  ∃ a, data_vars self' = data_vars self ++ [a] ∧
       name a = method_variable attr ∧
       ProductSpec.data a
       = if decide (attr = "lon" ∨ attr = "lon_nadir")
         then normalize_longitude data else data.
Proof.
  unfold Nadir__data_array. intros Hs Hrun.
  destruct (call_spec _ _ _ _ _ _ attr data) as [e|[enc arr]] eqn:Hcall;
    [done|].
  pose proof (call_spec_name _ _ _ _ Hcall) as Hname.
  pose proof (call_spec_data _ _ _ _ Hcall) as Hdata.
  cbn in Hname, Hdata, Hrun. rewrite Hs in Hrun.
  injection Hrun as <-. cbn. split; [done|]. by eexists.
Qed.

(** X24. A [Swath] product that is not to be completed hands to the
    writer, as longitudes and latitudes, its arrays [basic/longitude] and
    [basic/latitude]: the longitudes of the swath, normalised, and its
    latitudes, not those of the nadir. *)
Theorem swath_is_written_with_its_coordinates root (track : Pass array) self
    cycle_number pass_number path :
  Swath repr np_has np_name np_dtype_ok np_call np_array float
    normalize_longitude array_size np_full_rows root track = inr self →
  ∃ lng lat,
    name lng = "basic/longitude" ∧
    ProductSpec.data lng = normalize_longitude (track_lon track) ∧
    name lat = "basic/latitude" ∧
    ProductSpec.data lat = track_lat track ∧
    Nadir_to_netcdf np_has np_call np_array float np_full array_shape write
      self cycle_number pass_number path false
    = write self cycle_number pass_number path lng lat.
Proof.
  unfold Swath. intros Hrun.
  destruct (Nadir _ _ _ _ _ _ _ _ _ root track false) as [e|self0] eqn:H0;
    [done|].
  cbn [mbind error_bind] in Hrun.
  assert (Hs0 : standalone self0 = false).
  { unfold Nadir in H0.
    destruct (ProductSpecification _ _ _ _ root) as [e|spec0]; [done|].
    cbn [mbind error_bind] in H0.
    destruct (ProductSpecification_time spec0 (track_time track))
      as [e|[[enc vars] spec1]]; [done|].
    cbn [mbind error_bind] in H0.
    destruct (Nadir__data_array _ _ _ _ _ _ "lon_nadir" _)
      as [e|self1] eqn:H1; [done|].
    cbn [mbind error_bind] in H0.
    apply Nadir__data_array_plain in H1 as [Hs1 _]; [|done].
    by apply Nadir__data_array_plain in H0 as [? _]. }
  destruct (Nadir__data_array _ _ _ _ _ self0 "x_ac" _) as [e|self1] eqn:H1;
    [done|].
  cbn [mbind error_bind] in Hrun.
  destruct (Nadir__data_array _ _ _ _ _ self1 "lon" _) as [e|self2] eqn:H2;
    [done|].
  cbn [mbind error_bind] in Hrun.
  apply Nadir__data_array_plain in H1 as (Hs1 & a1 & Hd1 & Hn1 & _); [|done].
  apply Nadir__data_array_plain in H2 as (Hs2 & a2 & Hd2 & Hn2 & Hv2);
    [|done].
  apply Nadir__data_array_plain in Hrun as (Hs3 & a3 & Hd3 & Hn3 & Hv3);
    [|done].
  exists a2, a3.
  rewrite decide_True in Hv2 by by left.
  rewrite decide_False in Hv3 by (by intros [?|?]).
  split; [done|]. split; [done|]. split; [done|]. split; [done|].
  unfold Nadir_to_netcdf. cbv zeta. cbn [andb mbind error_bind].
  rewrite Hd3, Hd2, !by_name_snoc.
  assert (Hlng : <[name a3:=a3]> (<[name a2:=a2]> (by_name (data_vars self1)))
                 !! "basic/longitude" = Some a2).
  { rewrite Hn3, Hn2. rewrite lookup_insert_ne by done.
    apply lookup_insert_eq. }
  assert (Hlat : <[name a3:=a3]> (<[name a2:=a2]> (by_name (data_vars self1)))
                 !! "basic/latitude" = Some a3).
  { rewrite Hn3. apply lookup_insert_eq. }
  rewrite bool_decide_true by (rewrite Hlng; by eexists).
  unfold subscript. by rewrite Hlng, Hlat.
Qed.

Example replace_leftmost :
  replace "aa" "b" "aaa" = "ba" ∧ replace "ab" "x" "aabab" = "axx" ∧
  replace "_nadir" "" "expert/longitude_nadir" = "expert/longitude" ∧
  lower "TrUe" = "true".
Proof. by vm_compute. Qed.

End ProductFacts.

Section CompletionFacts.

Import ProductSpec.

Context {number array : Type}.

Variable np_has : string → bool.
Variable np_call : string → value number → error + number.
Variable np_array : value number → value number → error + number.
Variable float : value number → error + number.
Variable np_full : list nat → number → value number → array.
Variable array_shape : array → list nat.
Variable write :
  product number array → Z → Z → string →
  DataArray number array → DataArray number array → error + unit.

Implicit Types (self : product number array).
Implicit Types (filled : list (gmap string (value number)
                                * DataArray number array)).

Lemma fill_loop_names (spec_ : spec number)
    (items : list (string * properties number)) given shape filled :
  fill_loop np_has np_call np_array float np_full spec_ items given shape
  = inr filled →
  (λ made, name made.2) <$> filled = filter (λ k, k ∉ given) items.*1.
Proof.
  revert filled. induction items as [|[item p] rest IH]; intros filled Hrun.
  - by injection Hrun as <-.
  - cbn [fill_loop] in Hrun. cbn [fmap list_fmap fst].
    destruct (decide (item ∈ given)) as [Hin|Hout].
    + rewrite filter_cons_False by (by intros ?). by apply IH.
    + rewrite filter_cons_True by done.
      destruct (dict_subscript (variables spec_) item) as [e|q]; [done|].
      cbn [mbind error_bind] in Hrun.
      destruct (fill_value _ _ _ q) as [e|fill]; [done|].
      cbn [mbind error_bind] in Hrun.
      destruct (shape_of q) as [e|dims]; [done|].
      cbn [mbind error_bind] in Hrun.
      destruct (shape_tuple shape dims) as [e|sizes]; [done|].
      cbn [mbind error_bind] in Hrun.
      destruct (ProductSpecification__data_array _ _ _ _ spec_ item _)
        as [e|made] eqn:Hmade; [done|].
      cbn [mbind error_bind] in Hrun.
      destruct (fill_loop _ _ _ _ _ spec_ rest given shape) as [e|others];
        [done|].
      cbn [mbind error_bind] in Hrun. injection Hrun as <-.
      cbn [fmap list_fmap]. apply spec_data_array_name in Hmade as [-> _].
      f_equal. by apply IH.
Qed.

Lemma add_filled_data_vars self filled :
  data_vars (add_filled self filled) = data_vars self ++ filled.*2 ∧
  product_spec (add_filled self filled) = product_spec self.
Proof.
  revert self. induction filled as [|made rest IH]; intros self.
  - cbn. by rewrite app_nil_r.
  - unfold add_filled. cbn [foldl]. fold (add_filled
      (Product (standalone self) (product_spec self) (num_lines self)
         (<[name made.2:=made.1]> (encoding self))
         (data_vars self ++ [made.2])) rest).
    destruct (IH (Product (standalone self) (product_spec self)
                    (num_lines self)
                    (<[name made.2:=made.1]> (encoding self))
                    (data_vars self ++ [made.2]))) as [-> ->].
    cbn. by rewrite <- app_assoc.
Qed.

(** X25. [fill_variables] yields one array for each variable of the
    specification that is not among the names given, under the name of
    that variable and in the order of the specification, and none for
    the others. *)
Theorem fill_variables_names (spec_ : spec number) given shape filled :
  fill_variables np_has np_call np_array float np_full spec_ given shape
  = inr filled →
  (λ made, name made.2) <$> filled
  = filter (λ k, k ∉ given) (variables spec_).*1.
Proof. apply fill_loop_names. Qed.

(** X26. When a product that has the longitudes of the swath is
    written complete and the call returns, the product handed to the
    writer keeps the arrays it had, in their order, and has an array for
    every variable of the specification. *)
Theorem complete_product_has_every_variable self cycle_number pass_number
    path :
  is_Some (by_name (data_vars self) !! "basic/longitude") →
  Nadir_to_netcdf np_has np_call np_array float np_full array_shape write
    self cycle_number pass_number path true = inr () →
  ∃ self' lng lat,
    write self' cycle_number pass_number path lng lat = inr () ∧
    data_vars self `prefix_of` data_vars self' ∧
    ∀ k, k ∈ (variables (product_spec self)).*1 →
         k ∈ name <$> data_vars self'.
Proof.
  intros Hlng Hrun. unfold Nadir_to_netcdf in Hrun. cbv zeta in Hrun.
  rewrite bool_decide_true in Hrun by done. cbn [andb] in Hrun.
  destruct (subscript _ "basic/longitude") as [e|item]; [done|].
  cbn [mbind error_bind] in Hrun.
  destruct (fill_variables _ _ _ _ _ _ _ _) as [e|filled] eqn:Hfill; [done|].
  cbn [mbind error_bind] in Hrun.
  destruct (subscript _ "basic/latitude") as [e|lat]; [done|].
  cbn [mbind error_bind fst snd] in Hrun.
  apply fill_loop_names in Hfill.
  destruct (add_filled_data_vars self filled) as [Hvars _].
  eexists _, _, _. split; [exact Hrun|]. rewrite Hvars.
  split; [by apply prefix_app_r|].
  intros k Hk. rewrite fmap_app. apply elem_of_app.
  destruct (decide (k ∈ map name (data_vars self))) as [Hin|Hout];
    [by left|right].
  assert (Hfilled : k ∈ (λ made, name made.2) <$> filled).
  { rewrite Hfill. by apply list_elem_of_filter. }
  by rewrite <- list_fmap_compose.
Qed.

End CompletionFacts.

(** * The cases *)

Example cases_run :
  (∃ v a, ProductCases.parsed = inr (v, a) ∧ length v = 8 ∧ length a = 2) ∧
  ProductSpec.name <$> ProductSpec.data_vars (ProductCases.nadir true)
  = ["basic/time"; "expert/longitude"; "expert/latitude"] ∧
  ProductSpec.name <$> ProductSpec.data_vars ProductCases.nadir_with_ssh
  = ["basic/time"; "expert/longitude"; "expert/latitude"; "basic/ssh"] ∧
  ProductSpec.name <$> ProductSpec.data_vars ProductCases.swath
  = ["basic/time"; "expert/longitude_nadir"; "expert/latitude_nadir";
     "expert/cross_track_distance"; "basic/longitude"; "basic/latitude"] ∧
  (λ made, ProductSpec.name made.2) <$> ProductCases.filled
  = ["basic/time"; "basic/time_tai"; "expert/longitude_nadir";
     "expert/latitude_nadir"; "expert/cross_track_distance";
     "basic/ssh_karin"].
Proof. vm_compute. split; [by eexists _, _|done]. Qed.

(** * The theorems on the cases *)

Lemma scenario_first_succeeds :
  Forall (succeeds Scenario.computation)
         (take 1 (Scenario.futures ["Altimeter"; "Timing"])).
Proof. repeat constructor. by eexists. Qed.

Lemma scenario_reverse_succeed :
  Forall (succeeds Scenario.computation)
         (reverse (Scenario.futures ["Altimeter"; "Karin"])).
Proof. repeat constructor; by eexists. Qed.

Lemma generate_aborts_at_first_failure_witness :
  let s := Scenario.constructed ["Altimeter"; "Timing"] in
  let out := generate Scenario.computation id 0 1 1000%Z
               Scenario.along_track Scenario.across_track s in
  out.1 = inl (ExternalError "worker failed") ∧
  log out.2
  = log s ++ WorkerClientEnter
      :: ((λ item, Submit (bind_task item 1 1000%Z Scenario.along_track
                             Scenario.across_track))
          <$> Scenario.active ["Altimeter"; "Timing"])
      ++ (FutureResult
          <$> take 1 (Scenario.futures ["Altimeter"; "Timing"])
              ++ [Scenario.timing_future])
      ++ [WorkerClientExit].
Proof.
  apply (generate_aborts_at_first_failure
           Scenario.computation id 0 1%Z 1000%Z Scenario.along_track
           Scenario.across_track
           (Scenario.constructed ["Altimeter"; "Timing"])
           (Scenario.active ["Altimeter"; "Timing"]) 2 []
           (take 1 (Scenario.futures ["Altimeter"; "Timing"]))
           Scenario.timing_future [] (ExternalError "worker failed")).
  - vm_compute. reflexivity.
  - vm_compute. discriminate.
  - reflexivity.
  - vm_compute. reflexivity.
  - apply scenario_first_succeeds.
  - reflexivity.
Defined.

Lemma generate_fans_out_then_in_witness :
  let s := Scenario.constructed ["Altimeter"; "Karin"] in
  log (generate Scenario.computation reverse 0 1 1000%Z
         Scenario.along_track Scenario.across_track s).2
  = log s ++ WorkerClientEnter
      :: ((λ item, Submit (bind_task item 1 1000%Z Scenario.along_track
                             Scenario.across_track))
          <$> Scenario.active ["Altimeter"; "Karin"])
      ++ (FutureResult
          <$> reverse (futures_for (length (submits (log s)))
                         (Scenario.active ["Altimeter"; "Karin"]) 1 1000%Z
                         Scenario.along_track Scenario.across_track))
      ++ [WorkerClientExit].
Proof.
  apply (generate_fans_out_then_in
           Scenario.computation reverse 0 1%Z 1000%Z Scenario.along_track
           Scenario.across_track
           (Scenario.constructed ["Altimeter"; "Karin"])
           (Scenario.active ["Altimeter"; "Karin"]) 2 []).
  - vm_compute. reflexivity.
  - vm_compute. discriminate.
  - reflexivity.
  - apply scenario_reverse_succeed.
Defined.

Lemma generate_scalar_along_track_witness :
  let s := Scenario.constructed ["Altimeter"; "Karin"] in
  let out := generate Scenario.computation reverse 0 1 1000%Z
               Cases.scalar Scenario.across_track s in
  out.1 = inl IndexError ∧ log out.2 = log s.
Proof.
  apply (generate_scalar_along_track
           Scenario.computation reverse 0 1%Z 1000%Z Cases.scalar
           Scenario.across_track
           (Scenario.constructed ["Altimeter"; "Karin"])
           (Scenario.active ["Altimeter"; "Karin"])).
  - vm_compute. reflexivity.
  - vm_compute. discriminate.
  - reflexivity.
Defined.

Lemma successive_calls_do_not_share_witness :
  let s := Scenario.constructed ["Altimeter"; "Karin"] in
  let out1 := generate Scenario.computation reverse 0 1 1000%Z
                Scenario.along_track Scenario.across_track s in
  let out2 := generate Scenario.computation id 0 2 2000%Z
                Scenario.along_track Scenario.across_track out1.2 in
  1 ≠ 2 ∧ objects out2.2 !! 1 = objects out1.2 !! 1.
Proof.
  apply (successive_calls_do_not_share
           Scenario.computation reverse id 0 1%Z 2%Z 1000%Z 2000%Z
           Scenario.along_track Scenario.along_track
           Scenario.across_track Scenario.across_track
           (Scenario.constructed ["Altimeter"; "Karin"])
           (Scenario.active ["Altimeter"; "Karin"]) 1 2).
  - vm_compute. reflexivity.
  - vm_compute. reflexivity.
  - vm_compute. reflexivity.
Defined.

Lemma construction_missing_slice_witness :
  (Generator Cases.read_short_table
     (Scenario.configuration (Some "error_spectrum.nc")
        ["Timing"; "RollPhase"; "Karin"])
     Scenario.start).1
  = inl (KeyError "phasePSD").
Proof.
  apply (construction_missing_slice Cases.read_short_table
           (Scenario.configuration (Some "error_spectrum.nc")
              ["Timing"; "RollPhase"; "Karin"])
           Scenario.start "error_spectrum.nc" Cases.short_table
           [VTiming] VRollPhase ["Karin"] ["rollPSD"] "phasePSD"
           ["spatial_frequency"]).
  - reflexivity.
  - reflexivity.
  - repeat constructor. intros c Hc. cbn in Hc.
    repeat (apply elem_of_cons in Hc as [->|Hc]; [by eexists|]).
    by apply elem_of_nil in Hc.
  - reflexivity.
  - reflexivity.
  - repeat constructor. by eexists.
  - vm_compute. reflexivity.
Defined.




Lemma worker_logging_keeps_configured_logger_witness :
  Logbook.loggers
    (Logbook.setup_worker_logging "swot_simulator" Cases.server
       Cases.dask_process) !! "distributed"
  = Some (Logbook.Logger false [0] 30%Z).
Proof.
  apply (worker_logging_keeps_configured_logger "swot_simulator"
           Cases.server Cases.dask_process "distributed"
           (Logbook.Logger false [0] 30%Z)).
  - reflexivity.
  - discriminate.
Defined.

Lemma worker_logging_configures_bare_logger_witness :
  let st' := Logbook.setup_worker_logging "swot_simulator" Cases.server
               Cases.dask_process in
  ∃ ref,
    Logbook.loggers st' !! "swot_simulator"
    = Some (Logbook.Logger true [ref]
              (if decide (Cases.server.2 = 0%Z)
               then Logbook.level_of "swot_simulator" Cases.dask_process
               else Cases.server.2)) ∧
    Logbook.handler_objects st' !! ref
    = Some (Logbook.Handler
              (Logbook.SocketHandler Cases.server.1.1 Cases.server.1.2)
              (Some Logbook.tornado_formatter)).
Proof.
  apply (worker_logging_configures_bare_logger "swot_simulator" Cases.server
           Cases.dask_process "swot_simulator").
  - repeat constructor.
  - reflexivity.
Defined.

Lemma cases_dask_process_handlers :
  Logbook.handlers_exist Cases.dask_process.
Proof.
  intros name lg ref Hlg Href. cbn in Hlg.
  apply lookup_singleton_Some in Hlg as [_ <-]. cbn in Href.
  apply list_elem_of_singleton in Href as ->. cbn. set_solver.
Qed.



Lemma iso_duration_fields_witness :
  let '(hours, minutes, secs) := ProductSpec.duration_fields (-1) in
  ((-1) = 3600 * hours + 60 * minutes + secs ∧
   0 ≤ minutes < 60 ∧ 0 ≤ secs < 60)%Z.
Proof. apply (iso_duration_fields (-1)). lia. Defined.

Lemma create_variable_fill_value_witness :
  (ProductSpec._create_variable_args (number:=Z)
     {[ "basic/ssh_karin" :=
          {[ "_FillValue" := ProductSpec.Int 2147483647;
             "fill_value" := ProductSpec.Int 0;
             "dtype" := ProductSpec.Str "int32" ]} ]}
     "basic/ssh_karin" (ProductSpec.Str "float64")).1.2 !! "fill_value"
  = Some (ProductSpec.Int 2147483647).
Proof.
  apply (create_variable_fill_value (number:=Z)
           {[ "basic/ssh_karin" :=
                {[ "_FillValue" := ProductSpec.Int 2147483647;
                   "fill_value" := ProductSpec.Int 0;
                   "dtype" := ProductSpec.Str "int32" ]} ]}
           "basic/ssh_karin" (ProductSpec.Str "float64")
           {[ "_FillValue" := ProductSpec.Int 2147483647;
              "fill_value" := ProductSpec.Int 0;
              "dtype" := ProductSpec.Str "int32" ]}
           (ProductSpec.Int 2147483647)).
  - vm_compute. reflexivity.
  - vm_compute. reflexivity.
Defined.

Lemma integer_without_signed_is_unsigned_witness :
  ProductSpec.node_dtype (number:=Z) ProductCases.repr ProductCases.np_has
    ProductCases.np_name ProductCases.np_dtype_ok
    (ProductCases.node "integer" "/basic/flag" "line" "32" None [])
  = if ProductCases.np_has ("uint" +:+ "32")
    then inr (ProductSpec.Str (ProductCases.np_name ("uint" +:+ "32")))
    else inl (ProductSpec.AttributeError ("uint" +:+ "32")).
Proof.
  apply (integer_without_signed_is_unsigned (number:=Z) ProductCases.repr
           ProductCases.np_has ProductCases.np_name ProductCases.np_dtype_ok
           (ProductCases.node "integer" "/basic/flag" "line" "32" None [])
           "32").
  - reflexivity.
  - vm_compute. reflexivity.
  - vm_compute. reflexivity.
Defined.

Lemma parser_entries_witness :
  (∀ k p, ProductSpec.dict_get ProductCases.parsed_variables k = Some p →
          (∃ d dims, ProductSpec.shape p = Some (d :: dims)) ∧
          ProductSpec.attrs p !! "app" = None) ∧
  (∀ k p, ProductSpec.dict_get ProductCases.parsed_attributes k = Some p →
          ProductSpec.shape p = None).
Proof.
  apply (parser_entries (number:=Z) ProductCases.repr ProductCases.np_has
           ProductCases.np_name ProductCases.np_dtype_ok ProductCases.root
           ProductCases.parsed_variables ProductCases.parsed_attributes).
  vm_compute. reflexivity.
Defined.

Lemma parser_checks_every_node_witness :
  ProductSpec._parser (number:=Z) ProductCases.repr ProductCases.np_has
    ProductCases.np_name ProductCases.np_dtype_ok ProductCases.bad_root
  = inl (ProductSpec.ValueError
           ("Data type '" +:+ ProductSpec.tag ProductCases.complex_node
            +:+ "' is not recognized.")).
Proof.
  eapply (parser_checks_every_node (number:=Z) ProductCases.repr
            ProductCases.np_has ProductCases.np_name ProductCases.np_dtype_ok
            ProductCases.bad_root _ _ _
            (take 2 ProductCases.nodes) (drop 2 ProductCases.nodes)
            ProductCases.complex_node _ "64").
  - vm_compute. reflexivity.
  - vm_compute. reflexivity.
  - vm_compute. reflexivity.
  - reflexivity.
  - vm_compute. reflexivity.
  - vm_compute. reflexivity.
  - vm_compute. reflexivity.
  - vm_compute. intros H.
    repeat (inversion H as [|? ? ? H']; subst; clear H; rename H' into H).
Defined.

Lemma time_only_once_witness :
  ProductSpec.ProductSpecification_time ProductCases.after_time
    (ProductCases.line [2; 3]%Z)
  = inl (ProductSpec.KeyError "_FillValue").
Proof.
  eapply (time_only_once ProductCases.specification
            (ProductCases.line [0; 1]%Z) (ProductCases.line [2; 3]%Z) _
            ProductCases.after_time).
  vm_compute. reflexivity.
Defined.

Lemma data_array_attributes_witness :
  ProductSpec.name ProductCases.longitude.2 = "basic/longitude" ∧
  ProductSpec.data ProductCases.longitude.2
  = ProductSpec.track_lon ProductCases.track ∧
  ProductSpec.da_attrs ProductCases.longitude.2 !! "_FillValue" = None ∧
  (is_Some (ProductSpec.da_attrs ProductCases.longitude.2 !! "add_offset")
   ↔ is_Some (ProductSpec.da_attrs ProductCases.longitude.2
              !! "scale_factor")) ∧
  dom ProductCases.longitude.1 = {[ "_FillValue"; "dtype" ]}.
Proof.
  apply (data_array_attributes ProductCases.np_has ProductCases.np_call
           ProductCases.np_array ProductCases.float
           ProductCases.specification "basic/longitude"
           (ProductSpec.track_lon ProductCases.track)
           ProductCases.longitude.1 ProductCases.longitude.2).
  vm_compute. reflexivity.
Defined.

Lemma standalone_nadir_is_not_written_witness :
  ProductSpec.Nadir_to_netcdf ProductCases.np_has ProductCases.np_call
    ProductCases.np_array ProductCases.float ProductCases.np_full
    ProductCases.array_shape ProductCases.write
    ProductCases.nadir_with_ssh 1 2 "SWOT_GPN_2P1P001_002.nc" false
  = inl (ProductSpec.KeyError "expert/longitude_nadir").
Proof.
  apply (standalone_nadir_is_not_written ProductCases.repr
           ProductCases.np_has ProductCases.np_name ProductCases.np_dtype_ok
           ProductCases.np_call ProductCases.np_array ProductCases.float
           ProductCases.normalize_longitude ProductCases.np_full
           ProductCases.array_size ProductCases.array_shape
           ProductCases.write ProductCases.root ProductCases.track
           [ProductCases.line [5; 6]%Z] (ProductCases.nadir true) ProductCases.nadir_with_ssh).
  - vm_compute. reflexivity.
  - vm_compute. reflexivity.
Defined.

Lemma swath_is_written_with_its_coordinates_witness :
  ∃ lng lat,
    ProductSpec.name lng = "basic/longitude" ∧
    ProductSpec.data lng
    = ProductCases.normalize_longitude
        (ProductSpec.track_lon ProductCases.track) ∧
    ProductSpec.name lat = "basic/latitude" ∧
    ProductSpec.data lat = ProductSpec.track_lat ProductCases.track ∧
    ProductSpec.Nadir_to_netcdf ProductCases.np_has ProductCases.np_call
      ProductCases.np_array ProductCases.float ProductCases.np_full
      ProductCases.array_shape ProductCases.write
      ProductCases.swath 1 2 "SWOT_L2_LR_SSH_Expert_001_002.nc" false
    = ProductCases.write ProductCases.swath 1 2
        "SWOT_L2_LR_SSH_Expert_001_002.nc" lng lat.
Proof.
  apply (swath_is_written_with_its_coordinates ProductCases.repr
           ProductCases.np_has ProductCases.np_name ProductCases.np_dtype_ok
           ProductCases.np_call ProductCases.np_array ProductCases.float
           ProductCases.normalize_longitude ProductCases.np_full
           ProductCases.array_size ProductCases.array_shape
           ProductCases.write ProductCases.np_full_rows
           ProductCases.root ProductCases.track ProductCases.swath).
  vm_compute. reflexivity.
Defined.

Lemma fill_variables_names_witness :
  (λ made, ProductSpec.name made.2) <$> ProductCases.filled
  = filter (λ k, k ∉ ["basic/longitude"; "basic/latitude"])
      (ProductSpec.variables ProductCases.specification).*1.
Proof.
  apply (fill_variables_names ProductCases.np_has ProductCases.np_call
           ProductCases.np_array ProductCases.float ProductCases.np_full
           ProductCases.specification ["basic/longitude"; "basic/latitude"]
           ProductCases.sizes ProductCases.filled).
  vm_compute. reflexivity.
Defined.

Lemma complete_product_has_every_variable_witness :
  ∃ self' lng lat,
    ProductCases.write self' 1 2 "SWOT_L2_LR_SSH_Expert_001_002.nc" lng lat
    = inr () ∧
    ProductSpec.data_vars ProductCases.swath
      `prefix_of` ProductSpec.data_vars self' ∧
    ∀ k, k ∈ (ProductSpec.variables
                (ProductSpec.product_spec ProductCases.swath)).*1 →
         k ∈ ProductSpec.name <$> ProductSpec.data_vars self'.
Proof.
  apply (complete_product_has_every_variable ProductCases.np_has
           ProductCases.np_call ProductCases.np_array ProductCases.float
           ProductCases.np_full ProductCases.array_shape ProductCases.write
           ProductCases.swath 1 2 "SWOT_L2_LR_SSH_Expert_001_002.nc").
  - vm_compute. by eexists.
  - vm_compute. reflexivity.
Defined.
